(** * Glossar-App: the term search and matching engine

    A shallow embedding of the normalizer, the edit distance, the tiered
    search, the autocomplete ranking and the updates of the term collection
    of [App.tsx], with the properties of its specification.

    JavaScript strings are sequences of UTF-16 code units; the Unicode
    services of the runtime ([String.prototype.normalize], the [\p{..}]
    property classes of regular expressions, [toLowerCase]) are an
    interface, [Unicode].  Program-level results hold for every
    implementation of that interface; concrete strings are evaluated with
    [UCD.ucd], the tables of the Unicode Character Database for Latin-1
    and the combining diacritical marks. *)

From Stdlib Require Import ZArith NArith Lia String Ascii.
From stdpp Require Import base numbers list sorting.

Set Default Proof Using "Type".
Open Scope nat_scope.

(** ** JavaScript values *)

(** A string is the list of its UTF-16 code units. *)
Abbreviation code_unit := N (only parsing).
Abbreviation jsstring := (list N) (only parsing).

(** The code units of an ASCII literal. *)
Definition lit (s : string) : jsstring :=
  N_of_ascii <$> list_ascii_of_string s.

(** What can reach a parameter typed [string] at run time. *)
Inductive jsval :=
| Undefined
| Null
| Str (s : jsstring).

(** [v || ""]: [undefined], [null] and the empty string are falsy, so the
    result is always a string (and [.toString()] is the identity on it). *)
Definition or_empty (v : jsval) : jsstring :=
  match v with
  | Str s => s
  | Undefined | Null => []
  end.

(** [for (let i = lo; i < lo + count; i++) s = body i s] *)
Fixpoint for_loop {T : Type} (lo count : nat) (body : nat → T → T) (s : T) : T :=
  match count with
  | 0 => s
  | S k => for_loop (S lo) k body (body lo s)
  end.

(** ** String built-ins with a fixed meaning *)

(** ECMAScript [WhiteSpace] and [LineTerminator] code points. *)
Definition isWhiteSpace (c : code_unit) : bool :=
  bool_decide (c ∈ [0x9; 0xA; 0xB; 0xC; 0xD; 0x20; 0xA0; 0x1680; 0x2028;
                    0x2029; 0x202F; 0x205F; 0x3000; 0xFEFF]%N)
  || ((0x2000 <=? c) && (c <=? 0x200A))%N.

Fixpoint trimStart (s : jsstring) : jsstring :=
  match s with
  | c :: r => if isWhiteSpace c then trimStart r else s
  | [] => []
  end.

Definition trimEnd (s : jsstring) : jsstring :=
  reverse (trimStart (reverse s)).

(** [s.trim()] *)
Definition trim (s : jsstring) : jsstring := trimEnd (trimStart s).

(** [s.startsWith(t)] *)
Fixpoint startsWith (s t : jsstring) {struct t} : bool :=
  match t, s with
  | [], _ => true
  | _ :: _, [] => false
  | y :: t', x :: s' => (x =? y)%N && startsWith s' t'
  end.

(** [s.includes(t)] *)
Fixpoint includes (s t : jsstring) : bool :=
  startsWith s t ||
  match s with
  | [] => false
  | _ :: s' => includes s' t
  end.

(** [xs.findIndex(p)]: the first index whose element satisfies [p], or -1. *)
Definition findIndex {A} (P : A → Prop) `{∀ x, Decision (P x)} (xs : list A) : Z :=
  match list_find P xs with
  | Some (i, _) => Z.of_nat i
  | None => (-1)%Z
  end.

(** [xs[i] = v] on a dense array.  A negative [i] is a property key, not an
    index: the elements stay as they are.  [i = xs.length] appends.  Beyond
    that the array becomes sparse, which is outside this model ([None]). *)
Definition array_set {A} (xs : list A) (i : Z) (v : A) : option (list A) :=
  if (i <? 0)%Z then Some xs
  else if (i <? Z.of_nat (length xs))%Z then Some (<[Z.to_nat i := v]> xs)
  else if (i =? Z.of_nat (length xs))%Z then Some (xs ++ [v])
  else None.

(** [xs.sort(cmp)]: ECMAScript 2019 requires the sort to be stable, which
    fixes the result for a comparator that is a total preorder; insertion
    from the right realises it. *)
Fixpoint sort_insert {A} (cmp : A → A → Z) (x : A) (l : list A) : list A :=
  match l with
  | [] => [x]
  | y :: r => if (cmp x y <=? 0)%Z then x :: l else y :: sort_insert cmp x r
  end.

Definition sort {A} (cmp : A → A → Z) (l : list A) : list A :=
  foldr (sort_insert cmp) [] l.

(** ** The Unicode services of the runtime *)

Inductive NormalizationForm := NFD | NFKD.
Inductive Property := Diacritic | Mark.

Class Unicode := {
  (** [s.normalize(form)] *)
  normalizeForm : NormalizationForm → jsstring → jsstring;
  (** [s.replace(/\p{P}/gu, "")] *)
  removeProperty : Property → jsstring → jsstring;
  (** [s.toLowerCase()] *)
  toLowerCase : jsstring → jsstring;
}.

(** ** Types *)

Record Entry := {
  begriff : jsstring;
  definition : jsstring;
  beispiel : jsstring;
  quellen : list jsstring;
}.

(** The [{ e, d }] objects of the fuzzy tier. *)
Record Scored := { x_e : Entry; x_d : nat }.

Inductive EditorMode := create | edit.

(** The part of the component state that [saveEditor] reads and writes. *)
Record AppState := {
  entries : list Entry;
  editorOpen : bool;
  editorMode : EditorMode;
  editorIndex : option Z;
  formBegriff : jsstring;
  formDef : jsstring;
  formBsp : jsstring;
  formQ : list jsstring;
}.

Section Program.
Context `{U : Unicode}.

(** ** Utils *)

Definition normalize (str : jsval) : jsstring :=
  toLowerCase (removeProperty Diacritic (normalizeForm NFKD (or_empty str))).

(** The table after the two border loops and the double loop. *)
Definition levenshtein_table (a b : jsstring) : list (list nat) :=
  let m := length a in
  let n := length b in
  let dp := replicate (m + 1) (replicate (n + 1) 0) in
  let dp := for_loop 0 (m + 1) (λ i dp, alter (<[0 := i]>) i dp) dp in
  let dp := for_loop 0 (n + 1) (λ j dp, alter (<[j := j]>) 0 dp) dp in
  for_loop 1 m (λ i dp,
    for_loop 1 n (λ j dp,
      let cost := if decide (a !! (i - 1) = b !! (j - 1)) then 0 else 1 in
      alter (<[j := Nat.min (Nat.min ((dp !!! (i - 1)) !!! j + 1)
                                     ((dp !!! i) !!! (j - 1) + 1))
                            ((dp !!! (i - 1)) !!! (j - 1) + cost)]>) i dp) dp) dp.

Definition levenshtein (a b : jsstring) : nat :=
  let a := normalize (Str a) in
  let b := normalize (Str b) in
  let m := length a in
  let n := length b in
  if decide (m = 0) then n
  else if decide (n = 0) then m
  else (levenshtein_table a b !!! m) !!! n.

(** ** Search (exact, then substring, then fuzzy) *)

Definition results (sorted : list Entry) (query : jsstring)
    (fuzzy : bool) (fuzzyTol : Z) : list Entry :=
  let q := trim query in
  if decide (q = []) then sorted
  else
    let nq := normalize (Str q) in
    let exact := filter (λ e, normalize (Str (begriff e)) = nq) sorted in
    if decide (length exact ≠ 0) then exact
    else
      let partial := filter (λ e, includes (normalize (Str (begriff e))) nq) sorted in
      if decide (length partial ≠ 0) then partial
      else if fuzzy then
        x_e <$>
          sort (λ a b, Z.of_nat (x_d a) - Z.of_nat (x_d b))%Z
            (filter (λ x, (Z.of_nat (x_d x) ≤ fuzzyTol)%Z)
              ((λ e, {| x_e := e; x_d := levenshtein nq (begriff e) |}) <$> sorted))
      else [].

(** ** Autocomplete *)

Definition suggestions (sorted : list Entry) (query : jsstring) : list Entry :=
  let nq := normalize (Str query) in
  if decide (nq = []) then []
  else
    let starts := filter (λ e, startsWith (normalize (Str (begriff e))) nq) sorted in
    let rest := filter (λ e, ¬ startsWith (normalize (Str (begriff e))) nq
                             ∧ includes (normalize (Str (begriff e))) nq) sorted in
    take 8 (starts ++ rest).

(** ** Updates of the term collection *)

(** The first form of the application adds a term only when it is new. *)
Definition addEntry (newEntry : Entry) (prev : list Entry) : list Entry :=
  if decide (trim (begriff newEntry) = []) then prev
  else if decide (Exists (λ p, normalize (Str (begriff p))
                               = normalize (Str (begriff newEntry))) prev)
       then prev
       else prev ++ [newEntry].

(** [removeEntry] of the first form of the application. *)
Definition removeEntry (begr : jsstring) (prev : list Entry) : list Entry :=
  filter (λ p, normalize (Str (begriff p)) ≠ normalize (Str begr)) prev.

(** The delete button of the detail dialog of [App.tsx]. *)
Definition deleteSelected (selected : Entry) (prev : list Entry) : list Entry :=
  filter (λ e, begriff e ≠ begriff selected) prev.

(** [if (i >= 0) xs[i] = p; else xs.push(p)] with
    [i = xs.findIndex(x => normalize(x.begriff) === normalize(p.begriff))] *)
Definition upsert (p : Entry) (xs : list Entry) : list Entry :=
  let i := findIndex (λ x, normalize (Str (begriff x)) = normalize (Str (begriff p))) xs in
  if decide (0 ≤ i)%Z then <[Z.to_nat i := p]> xs else xs ++ [p].

(** The merge at the end of [importCSVFromFile], on the parsed rows. *)
Definition importMerge (parsed : list Entry) (prev : list Entry) : list Entry :=
  foldl (λ merged p, if decide (trim (begriff p) = []) then merged
                     else upsert p merged) prev parsed.

(** [saveEditor]: the state after the call.  With a blank term it alerts
    and returns, the state as it was.  [None] stands for the one case in
    which the new collection is no dense array: edit mode with an index
    beyond its end (see [array_set]). *)
Definition saveEditor (st : AppState) : option AppState :=
  let trimmed := {| begriff := trim (formBegriff st);
                    definition := trim (formDef st);
                    beispiel := trim (formBsp st);
                    quellen := formQ st |} in
  if decide (begriff trimmed = []) then Some st
  else
    copy ← match editorMode st, editorIndex st with
           | edit, Some i => array_set (entries st) i trimmed
           | _, _ => Some (upsert trimmed (entries st))
           end;
    Some {| entries := copy;
            editorOpen := false;
            editorMode := editorMode st;
            editorIndex := editorIndex st;
            formBegriff := formBegriff st;
            formDef := formDef st;
            formBsp := formBsp st;
            formQ := formQ st |}.

End Program.

(** ** The Unicode Character Database, U+0000..U+00FF and U+0300..U+036F

    The decomposition mappings, canonical combining classes, [Diacritic]
    property, general category M and lower-case mappings that Unicode 14.0
    gives the code points of Basic Latin, Latin-1 Supplement and Combining
    Diacritical Marks, and the algorithms of the runtime over them
    (decomposition followed by canonical ordering, removal by property,
    lower-casing).  The tables are silent on every other code unit, which
    is kept as it is, so [ucd] is the runtime on strings of this range
    only; U+03BC and U+2044, which Latin-1 code points decompose to, are
    inert in the database as they are here. *)
Module UCD.

(** Full canonical decompositions. *)
Definition canonical_table : list (N * list N) :=
  [(0xC0, [0x41; 0x300]); (0xC1, [0x41; 0x301]); (0xC2, [0x41; 0x302]); (0xC3, [0x41; 0x303]);
   (0xC4, [0x41; 0x308]); (0xC5, [0x41; 0x30A]); (0xC7, [0x43; 0x327]); (0xC8, [0x45; 0x300]);
   (0xC9, [0x45; 0x301]); (0xCA, [0x45; 0x302]); (0xCB, [0x45; 0x308]); (0xCC, [0x49; 0x300]);
   (0xCD, [0x49; 0x301]); (0xCE, [0x49; 0x302]); (0xCF, [0x49; 0x308]); (0xD1, [0x4E; 0x303]);
   (0xD2, [0x4F; 0x300]); (0xD3, [0x4F; 0x301]); (0xD4, [0x4F; 0x302]); (0xD5, [0x4F; 0x303]);
   (0xD6, [0x4F; 0x308]); (0xD9, [0x55; 0x300]); (0xDA, [0x55; 0x301]); (0xDB, [0x55; 0x302]);
   (0xDC, [0x55; 0x308]); (0xDD, [0x59; 0x301]); (0xE0, [0x61; 0x300]); (0xE1, [0x61; 0x301]);
   (0xE2, [0x61; 0x302]); (0xE3, [0x61; 0x303]); (0xE4, [0x61; 0x308]); (0xE5, [0x61; 0x30A]);
   (0xE7, [0x63; 0x327]); (0xE8, [0x65; 0x300]); (0xE9, [0x65; 0x301]); (0xEA, [0x65; 0x302]);
   (0xEB, [0x65; 0x308]); (0xEC, [0x69; 0x300]); (0xED, [0x69; 0x301]); (0xEE, [0x69; 0x302]);
   (0xEF, [0x69; 0x308]); (0xF1, [0x6E; 0x303]); (0xF2, [0x6F; 0x300]); (0xF3, [0x6F; 0x301]);
   (0xF4, [0x6F; 0x302]); (0xF5, [0x6F; 0x303]); (0xF6, [0x6F; 0x308]); (0xF9, [0x75; 0x300]);
   (0xFA, [0x75; 0x301]); (0xFB, [0x75; 0x302]); (0xFC, [0x75; 0x308]); (0xFD, [0x79; 0x301]);
   (0xFF, [0x79; 0x308]); (0x340, [0x300]); (0x341, [0x301]); (0x343, [0x313]);
   (0x344, [0x308; 0x301])]%N.

(** Full compatibility decompositions that are not canonical ones. *)
Definition compatibility_table : list (N * list N) :=
  [(0xA0, [0x20]); (0xA8, [0x20; 0x308]); (0xAA, [0x61]); (0xAF, [0x20; 0x304]);
   (0xB2, [0x32]); (0xB3, [0x33]); (0xB4, [0x20; 0x301]); (0xB5, [0x3BC]);
   (0xB8, [0x20; 0x327]); (0xB9, [0x31]); (0xBA, [0x6F]); (0xBC, [0x31; 0x2044; 0x34]);
   (0xBD, [0x31; 0x2044; 0x32]); (0xBE, [0x33; 0x2044; 0x34])]%N.

(** Canonical combining classes, by range; 0 elsewhere. *)
Definition ccc_table : list (N * N * N) :=
  [(0x300, 0x314, 230); (0x315, 0x315, 232); (0x316, 0x319, 220); (0x31A, 0x31A, 232);
   (0x31B, 0x31B, 216); (0x31C, 0x320, 220); (0x321, 0x322, 202); (0x323, 0x326, 220);
   (0x327, 0x328, 202); (0x329, 0x333, 220); (0x334, 0x338, 1); (0x339, 0x33C, 220);
   (0x33D, 0x344, 230); (0x345, 0x345, 240); (0x346, 0x346, 230); (0x347, 0x349, 220);
   (0x34A, 0x34C, 230); (0x34D, 0x34E, 220); (0x350, 0x352, 230); (0x353, 0x356, 220);
   (0x357, 0x357, 230); (0x358, 0x358, 232); (0x359, 0x35A, 220); (0x35B, 0x35B, 230);
   (0x35C, 0x35C, 233); (0x35D, 0x35E, 234); (0x35F, 0x35F, 233); (0x360, 0x361, 234);
   (0x362, 0x362, 233); (0x363, 0x36F, 230)]%N.

Definition diacritic_ranges : list (N * N) :=
  [(0x5E, 0x5E); (0x60, 0x60); (0xA8, 0xA8); (0xAF, 0xAF); (0xB4, 0xB4); (0xB7, 0xB8);
   (0x300, 0x34E); (0x350, 0x357); (0x35D, 0x362)]%N.

(** General category M. *)
Definition mark_ranges : list (N * N) := [(0x300, 0x36F)]%N.

(** Code points whose lower case is 32 further. *)
Definition upper_ranges : list (N * N) := [(0x41, 0x5A); (0xC0, 0xD6); (0xD8, 0xDE)]%N.

Definition in_ranges (rs : list (N * N)) (c : N) : bool :=
  existsb (λ r, (r.1 <=? c) && (c <=? r.2))%N rs.

Fixpoint assoc {V} (t : list (N * V)) (c : N) : option V :=
  match t with
  | [] => None
  | (k, v) :: t' => if (k =? c)%N then Some v else assoc t' c
  end.

Definition canonical (c : N) : list N := default [c] (assoc canonical_table c).

Definition compatibility (c : N) : list N :=
  default (canonical c) (assoc compatibility_table c).

Definition ccc (c : N) : N :=
  match find (λ r, (r.1.1 <=? c) && (c <=? r.1.2))%N ccc_table with
  | Some r => r.2
  | None => 0%N
  end.

(** Canonical ordering: a combining code point moves in front of the
    ones before it that have a greater combining class.  [placed] is the
    text so far, last code point first. *)
Fixpoint place (c : N) (placed : list N) : list N :=
  match placed with
  | p :: r => if ((0 <? ccc c) && (ccc c <? ccc p))%N then p :: place c r
              else c :: placed
  | [] => [c]
  end.

Definition reorder (s : list N) : list N :=
  reverse (foldl (λ placed c, place c placed) [] s).

Definition decompose (form : NormalizationForm) (s : list N) : list N :=
  reorder (s ≫= match form with NFD => canonical | NFKD => compatibility end).

Definition has (p : Property) (c : N) : bool :=
  match p with
  | Diacritic => in_ranges diacritic_ranges c
  | Mark => in_ranges mark_ranges c
  end.

Definition lower (c : N) : N :=
  if in_ranges upper_ranges c then (c + 32)%N else c.

Definition ucd : Unicode := {|
  normalizeForm := decompose;
  removeProperty p s := filter (λ c, ¬ has p c) s;
  toLowerCase s := lower <$> s;
|}.

(** The code points of Latin-1. *)
Definition latin1 : list N := N.of_nat <$> seq 0 256.

(** The code points of Combining Diacritical Marks. *)
Definition combining : list N := (λ n, 0x300 + N.of_nat n)%N <$> seq 0 0x70.

(** The code points the tables above describe. *)
Definition covered (c : N) : Prop := (c < 0x100 ∨ 0x300 ≤ c ≤ 0x36F)%N.

(** What [normalize] asks of a code point of its own output, the combining
    class apart. *)
Definition settled (c : N) : Prop :=
  compatibility c = [c] ∧ ¬ has Diacritic c ∧ lower c = c.

#[global] Instance settled_dec (c : N) : Decision (settled c).
Proof. unfold settled. apply _. Defined.

(** A combining mark that [normalize] keeps: its combining class is not 0
    and it does not have the property [Diacritic]. *)
Definition kept_mark (c : N) : Prop := ccc c ≠ 0%N ∧ ¬ has Diacritic c.

(** A code point that [normalize] removes from between two combining
    sequences: it has the property [Diacritic], it is no combining mark
    and the decomposition leaves it where it is. *)
Definition removed_starter (c : N) : Prop :=
  has Diacritic c ∧ ccc c = 0%N ∧ compatibility c = [c].

#[global] Instance kept_mark_dec (c : N) : Decision (kept_mark c).
Proof. unfold kept_mark. apply _. Defined.

#[global] Instance removed_starter_dec (c : N) : Decision (removed_starter c).
Proof. unfold removed_starter. apply _. Defined.

(** Canonical order of [placed], a text with its last code point first,
    followed by a code point of combining class [next] (0 if by a starter
    or by nothing): no code point has a greater combining class than a
    combining mark that follows it directly. *)
Fixpoint in_order (next : N) (placed : list N) : Prop :=
  match placed with
  | [] => True
  | c :: r => (next = 0 ∨ ccc c ≤ next)%N ∧ in_order (ccc c) r
  end.

End UCD.

(** ** The specification's words *)

(** The normalizer as the specification words it: canonical decomposition,
    every combining mark stripped, lower case; the empty string for
    [null] and [undefined]. *)
Definition normalize_spec `{U : Unicode} (v : jsval) : jsstring :=
  match v with
  | Undefined | Null => []
  | Str s => toLowerCase (removeProperty Mark (normalizeForm NFD s))
  end.

(** Edit scripts that turn [s] into [t], with their number of insertions,
    deletions and substitutions. *)
Inductive edits : jsstring → jsstring → nat → Prop :=
| edits_nil : edits [] [] 0
| edits_keep x s t k : edits s t k → edits (x :: s) (x :: t) k
| edits_subst x y s t k : edits s t k → edits (x :: s) (y :: t) (S k)
| edits_delete x s t k : edits s t k → edits (x :: s) t (S k)
| edits_insert y s t k : edits s t k → edits s (y :: t) (S k).

(** The classic recurrence of the edit distance. *)
Fixpoint distance (s : jsstring) : jsstring → nat :=
  fix inner (t : jsstring) : nat :=
    match s, t with
    | [], _ => length t
    | _, [] => length s
    | x :: s', y :: t' =>
        Nat.min (Nat.min (distance s' t + 1) (inner t' + 1))
                (distance s' t' + (if decide (x = y) then 0 else 1))
    end.

(** The term collection holds no two entries with the same canonical term. *)
Definition unique_terms `{U : Unicode} (xs : list Entry) : Prop :=
  NoDup ((λ e, normalize (Str (begriff e))) <$> xs).

(** [t] occurs in [s] as a contiguous run of code units. *)
Definition infix_of (t s : jsstring) : Prop :=
  Exists (λ i, t `prefix_of` drop i s) (seq 0 (S (length s))).

#[global] Instance infix_of_dec t s : Decision (infix_of t s) :=
  Exists_dec (λ i, t `prefix_of` drop i s) (seq 0 (S (length s))).

(** The autocomplete ranking as the specification words it: only the empty
    query is set apart. *)
Definition suggest_spec `{U : Unicode} (sorted : list Entry) (query : jsstring)
    : list Entry :=
  let nq := normalize (Str query) in
  if decide (query = []) then []
  else take 8 (filter (λ e, nq `prefix_of` normalize (Str (begriff e))) sorted ++
               filter (λ e, ¬ nq `prefix_of` normalize (Str (begriff e))
                            ∧ infix_of nq (normalize (Str (begriff e)))) sorted).

(** The distance of the fuzzy tier as the specification words it, between
    the normalized query and the normalized term ... *)
Definition fuzzy_distance_spec `{U : Unicode} (query : jsstring) (e : Entry) : nat :=
  distance (normalize (Str (trim query))) (normalize (Str (begriff e))).

(** ... and as the program computes it: [levenshtein] is handed the
    normalized query and normalizes both of its arguments. *)
Definition fuzzy_distance `{U : Unicode} (query : jsstring) (e : Entry) : nat :=
  distance (normalize (Str (normalize (Str (trim query)))))
           (normalize (Str (begriff e))).

(** ** Sample data *)

Definition entry (term : string) : Entry :=
  {| begriff := lit term; definition := []; beispiel := []; quellen := [] |}.

Definition entry_of (term : jsstring) : Entry :=
  {| begriff := term; definition := []; beispiel := []; quellen := [] |}.

Definition glossary : list Entry :=
  [entry "Algorithmus"; entry "Algorithmic"; entry "Zebra"].

Definition berichte : list Entry :=
  [entry "Bericht"; entry "Algorithmus"; entry "Berater"].

(** The editor, opened on the second of two entries, with its term changed
    to the first entry's term in lower case. *)
Definition rename_state : AppState :=
  {| entries := [entry "Alpha"; entry "Beta"];
     editorOpen := true;
     editorMode := edit;
     editorIndex := Some 1%Z;
     formBegriff := lit "alpha";
     formDef := [];
     formBsp := [];
     formQ := [] |}.

(** U+035B (class 230), U+005E circumflex accent (a starter with the
    [Diacritic] property), U+0359 (class 220): removing the accent brings
    the two marks together, out of canonical order. *)
Definition zigzag_query : jsstring := [0x35B; 0x5E; 0x359]%N.

(** ** The table of [levenshtein] *)

(** [length a + 1] rows of [length b + 1] cells. *)
Definition table_shape (a b : jsstring) (dp : list (list nat)) : Prop :=
  length dp = length a + 1 ∧
  ∀ i, i ≤ length a → length (dp !!! i) = length b + 1.

(** The rows before [i], the cells of row [i] before column [j] and the
    first column hold the distance between the prefixes they stand for. *)
Definition table_filled (a b : jsstring) (i j : nat) (dp : list (list nat)) : Prop :=
  table_shape a b dp ∧
  ∀ i' j', i' ≤ length a → j' ≤ length b →
    i' < i ∨ (i' = i ∧ j' < j) ∨ j' = 0 →
    (dp !!! i') !!! j' = distance (take i' a) (take j' b).

(** ** The rest of the component *)

(** *** CSV export and import *)

Definition quote : N := 0x22.
Definition comma : N := 0x2C.
Definition LF : N := 0xA.
Definition CR : N := 0xD.

(** [xs.join(sep)] *)
Fixpoint join (sep : jsstring) (xs : list jsstring) : jsstring :=
  match xs with
  | [] => []
  | x :: r => match r with
              | [] => x
              | _ :: _ => x ++ sep ++ join sep r
              end
  end.

(** [s.replace] of every quotation mark by two. *)
Definition doubleQuotes (s : jsstring) : jsstring :=
  s ≫= λ c, if decide (c = quote) then [quote; quote] else [c].

(** The test of [csvEscape]: a comma, a quotation mark or a line feed. *)
Definition needsQuotes (s : jsstring) : Prop :=
  Exists (λ c, c = comma ∨ c = quote ∨ c = LF) s.

Definition csvEscape (val : jsval) : jsstring :=
  let s := or_empty val in
  if decide (needsQuotes s) then [quote] ++ doubleQuotes s ++ [quote] else s.

(** The loop of [parseLine] over the rest of the line, with [cells], [cur]
    and [inQ]; [i++] inside the loop skips the second of two quotes. *)
Fixpoint parseLine_loop (line : jsstring) (cells : list jsstring)
    (cur : jsstring) (inQ : bool) : list jsstring :=
  match line with
  | [] => cells ++ [cur]
  | ch :: rest =>
      if inQ then
        if decide (ch = quote) then
          match rest with
          | next :: rest' =>
              if decide (next = quote)
              then parseLine_loop rest' cells (cur ++ [quote]) true
              else parseLine_loop rest cells cur false
          | [] => parseLine_loop rest cells cur false
          end
        else parseLine_loop rest cells (cur ++ [ch]) true
      else
        if decide (ch = quote) then parseLine_loop rest cells cur true
        else if decide (ch = comma) then parseLine_loop rest (cells ++ [cur]) [] false
        else parseLine_loop rest cells (cur ++ [ch]) false
  end.

Definition parseLine (line : jsstring) : list jsstring :=
  parseLine_loop line [] [] false.

(** [text.split(/\r?\n/)], with the line read so far. *)
Fixpoint splitLines_loop (text : jsstring) (cur : jsstring) : list jsstring :=
  match text with
  | [] => [cur]
  | c :: rest =>
      if decide (c = LF) then cur :: splitLines_loop rest []
      else if decide (c = CR) then
        match rest with
        | c' :: rest' =>
            if decide (c' = LF) then cur :: splitLines_loop rest' []
            else splitLines_loop rest (cur ++ [c])
        | [] => splitLines_loop rest (cur ++ [c])
        end
      else splitLines_loop rest (cur ++ [c])
  end.

Definition splitLines (text : jsstring) : list jsstring := splitLines_loop text [].

(** [s.split(/[;|,]/)] *)
Fixpoint splitLabels_loop (s : jsstring) (cur : jsstring) : list jsstring :=
  match s with
  | [] => [cur]
  | c :: rest =>
      if decide (c = 0x3B ∨ c = 0x7C ∨ c = comma)%N
      then cur :: splitLabels_loop rest []
      else splitLabels_loop rest (cur ++ [c])
  end.

Definition splitLabels (s : jsstring) : list jsstring := splitLabels_loop s [].

(** [c[i]], the empty string where there is no such cell. *)
Definition cell (c : list jsstring) (i : Z) : jsstring :=
  if decide (0 ≤ i)%Z then default [] (c !! Z.to_nat i) else [].

(** The text that [exportCSV] hands to [downloadBlob]. *)
Definition csvRow (e : Entry) : jsstring :=
  join [comma] [csvEscape (Str (begriff e)); csvEscape (Str (definition e));
                csvEscape (Str (beispiel e));
                csvEscape (Str (join (lit "; ") (quellen e)))].

Definition exportCSV (entries : list Entry) : jsstring :=
  join [LF] (join [comma] [lit "Begriff"; lit "Definition"; lit "Beispiel"; lit "Quellen"]
             :: (csvRow <$> entries)).

(** *** Sources *)

Record Source := { quelle : jsstring; beschreibung : jsstring }.

(** The state that [addNewSourceInEditor] reads and writes. *)
Record SourceForm := {
  sources : list Source;
  selectedQ : list jsstring;
  newQuelle : jsstring;
  newBeschr : jsstring;
}.

Definition addNewSourceInEditor (st : SourceForm) : SourceForm :=
  let qn := trim (newQuelle st) in
  if decide (qn = []) then st
  else
    {| sources := if decide (Exists (λ s, quelle s = qn) (sources st))
                  then sources st
                  else sources st ++ [{| quelle := qn;
                                         beschreibung := trim (newBeschr st) |}];
       selectedQ := if decide (qn ∈ selectedQ st) then selectedQ st
                    else selectedQ st ++ [qn];
       newQuelle := [];
       newBeschr := [] |}.

(** The check box of a source in the editor. *)
Definition toggleQ (name : jsstring) (prev : list jsstring) : list jsstring :=
  if decide (name ∈ prev) then filter (λ x, x ≠ name) prev else prev ++ [name].

(** [onRemove] of the source list: [s.filter((_, idx) => idx !== i)] *)
Definition removeSource (i : nat) (s : list Source) : list Source :=
  (imap (λ idx x, (idx, x)) s) ≫= λ p, if decide (p.1 ≠ i) then [p.2] else [].

(** *** The editor *)

Definition openEditorCreate (st : AppState) : AppState :=
  {| entries := entries st;
     editorOpen := true;
     editorMode := create;
     editorIndex := None;
     formBegriff := [];
     formDef := [];
     formBsp := [];
     formQ := [] |}.

Definition openEditorEdit (entry : Entry) (index : Z) (st : AppState) : AppState :=
  {| entries := entries st;
     editorOpen := true;
     editorMode := edit;
     editorIndex := Some index;
     formBegriff := begriff entry;
     formDef := definition entry;
     formBsp := beispiel entry;
     formQ := quellen entry |}.

(** The pencil button of a result row:
    [openEditorEdit(e, entries.findIndex(x => x.begriff === e.begriff))] *)
Definition editClick (e : Entry) (st : AppState) : AppState :=
  openEditorEdit e (findIndex (λ x, begriff x = begriff e) (entries st)) st.

Section Component.
Context `{U : Unicode}.

(** [sorted]: a copy of the entries sorted by [localeCompare] of the
    normalized terms, reversed when [sortAsc] is off. *)
Definition sorted (localeCompare : jsstring → jsstring → Z)
    (entries : list Entry) (sortAsc : bool) : list Entry :=
  let arr := sort (λ a b, localeCompare (normalize (Str (begriff a)))
                                         (normalize (Str (begriff b)))) entries in
  if sortAsc then arr else reverse arr.

(** The row of a data line, given the columns found in the header. *)
Definition parseRow (idxB idxD idxX idxQ : Z) (l : jsstring) : Entry :=
  let c := parseLine l in
  let q := filter (λ s, s ≠ [])
             (trim <$> splitLabels (if decide (idxQ ≠ -1)%Z then cell c idxQ else [])) in
  {| begriff := cell c idxB;
     definition := if decide (idxD ≠ -1)%Z then cell c idxD else [];
     beispiel := if decide (idxX ≠ -1)%Z then cell c idxX else [];
     quellen := q |}.

(** [importCSVFromFile] on the text of the file: [None] is the alert for a
    header without the column Begriff, which leaves the entries as they are. *)
Definition importCSVFromFile (text : jsstring) (prev : list Entry)
    : option (list Entry) :=
  let lines := splitLines text in
  let header := parseLine (default [] (lines !! 0)) in
  let cols := (λ s, toLowerCase (trim s)) <$> header in
  let idxB := findIndex (λ c, c = lit "begriff") cols in
  let idxD := findIndex (λ c, c = lit "definition") cols in
  let idxX := findIndex (λ c, c = lit "beispiel") cols in
  let idxQ := findIndex (λ c, c = lit "quellen") cols in
  if decide (idxB = -1)%Z then None
  else
    let parsed := parseRow idxB idxD idxX idxQ
                    <$> filter (λ l, trim l ≠ []) (drop 1 lines) in
    Some (importMerge parsed prev).

End Component.

(** *** What a CSV file gives back *)

(** No line feed and no carriage return. *)
Definition one_line (s : jsstring) : Prop := Forall (λ c, c ≠ LF ∧ c ≠ CR) s.

(** A source label that survives the column Quellen: not empty, trimmed,
    on one line and without the separators [;], [|] and [,]. *)
Definition plain_label (l : jsstring) : Prop :=
  l ≠ [] ∧ trim l = l ∧ one_line l ∧ Forall (λ c, ¬ (c = 0x3B ∨ c = 0x7C ∨ c = comma)%N) l.

Definition exportable (e : Entry) : Prop :=
  one_line (begriff e) ∧ one_line (definition e) ∧ one_line (beispiel e)
  ∧ Forall plain_label (quellen e).

(** The lower case of the four column names, as the runtime gives it. *)
Definition header_case `{U : Unicode} : Prop :=
  toLowerCase (lit "Begriff") = lit "begriff"
  ∧ toLowerCase (lit "Definition") = lit "definition"
  ∧ toLowerCase (lit "Beispiel") = lit "beispiel"
  ∧ toLowerCase (lit "Quellen") = lit "quellen".

(** An entry with a comma, quotation marks and two sources. *)
Definition sample_entry : Entry :=
  {| begriff := lit "Haus, Hof";
     definition := [0x22; 0x61; 0x22]%N;
     beispiel := [];
     quellen := [lit "Duden"; lit "Wiki 2"] |}.

(** An entry whose term and definition carry outer white space, between
    two others. *)
Definition padded_entry : Entry :=
  {| begriff := lit "  Zebra "; definition := lit " striped "; beispiel := [];
     quellen := [lit "Brehm"] |}.

Definition padded_state : AppState :=
  {| entries := [entry "Alpha"; padded_entry; entry "Beta"];
     editorOpen := false;
     editorMode := create;
     editorIndex := None;
     formBegriff := [];
     formDef := [];
     formBsp := [];
     formQ := [] |}.

(** The editor opened by [openEditorCreate] on the sample glossary, with
    the term of its first entry typed in capitals and padded. *)
Definition create_state : AppState :=
  let st := openEditorCreate {| entries := glossary;
                                editorOpen := false;
                                editorMode := edit;
                                editorIndex := Some 2%Z;
                                formBegriff := lit "Zebra";
                                formDef := [];
                                formBsp := [];
                                formQ := [] |} in
  {| entries := entries st;
     editorOpen := editorOpen st;
     editorMode := editorMode st;
     editorIndex := editorIndex st;
     formBegriff := lit " ALGORITHMUS ";
     formDef := lit "Rechenvorschrift";
     formBsp := formBsp st;
     formQ := formQ st |}.

(** * Properties *)

(** ** Loops *)

Lemma for_loop_snoc {T} lo k (body : nat → T → T) s :
  for_loop lo (S k) body s = body (lo + k) (for_loop lo k body s).
Proof.
  revert lo s. induction k as [|k IH]; intros lo s.
  - simpl. by rewrite Nat.add_0_r.
  - change (for_loop lo (S (S k)) body s)
      with (for_loop (S lo) (S k) body (body lo s)).
    rewrite IH. simpl. by rewrite Nat.add_succ_r.
Qed.

(** The invariant rule of a counting loop. *)
Lemma for_loop_invariant {T} (I : nat → T → Prop) lo n (body : nat → T → T) s :
  I lo s →
  (∀ i s, lo ≤ i < lo + n → I i s → I (S i) (body i s)) →
  I (lo + n) (for_loop lo n body s).
Proof.
  intros Hs Hbody. induction n as [|n IH].
  - by rewrite Nat.add_0_r.
  - rewrite for_loop_snoc, Nat.add_succ_r.
    apply Hbody; [lia|]. apply IH. intros i s' ?. apply Hbody. lia.
Qed.

(** ** Edit scripts and the recurrence *)

Section Distance.
Implicit Types s t : list N.

Lemma distance_nil_l t : distance [] t = length t.
Proof. by destruct t. Qed.

Lemma distance_nil_r s : distance s [] = length s.
Proof. by destruct s. Qed.

Lemma distance_cons x y s t :
  distance (x :: s) (y :: t) =
  Nat.min (Nat.min (distance s (y :: t) + 1) (distance (x :: s) t + 1))
          (distance s t + (if decide (x = y) then 0 else 1)).
Proof. reflexivity. Qed.

Lemma edits_insert_all t : edits [] t (length t).
Proof. induction t; simpl; by constructor. Qed.

Lemma edits_delete_all s : edits s [] (length s).
Proof. induction s; simpl; by constructor. Qed.

(** Some script reaches the recurrence's value ... *)
Lemma edits_distance s t : edits s t (distance s t).
Proof.
  revert t. induction s as [|x s IHs]; intros t.
  { rewrite distance_nil_l. apply edits_insert_all. }
  induction t as [|y t IHt].
  { rewrite distance_nil_r. apply edits_delete_all. }
  rewrite distance_cons.
  pose proof (IHs (y :: t)) as Hdel. pose proof (IHs t) as Hsub.
  destruct (decide (x = y)) as [->|Hxy].
  - rewrite Nat.add_0_r.
    destruct (Nat.min_spec (Nat.min (distance s (y :: t) + 1)
                (distance (y :: s) t + 1)) (distance s t)) as [[_ ->]|[_ ->]];
      [|by constructor].
    destruct (Nat.min_spec (distance s (y :: t) + 1)
                (distance (y :: s) t + 1)) as [[_ ->]|[_ ->]];
      rewrite Nat.add_1_r; by constructor.
  - destruct (Nat.min_spec (Nat.min (distance s (y :: t) + 1)
                (distance (x :: s) t + 1)) (distance s t + 1)) as [[_ ->]|[_ ->]];
      [|rewrite Nat.add_1_r; by constructor].
    destruct (Nat.min_spec (distance s (y :: t) + 1)
                (distance (x :: s) t + 1)) as [[_ ->]|[_ ->]];
      rewrite Nat.add_1_r; by constructor.
Qed.

Lemma distance_delete_le x s t : distance (x :: s) t ≤ distance s t + 1.
Proof.
  destruct t as [|y t].
  - rewrite !distance_nil_r. simpl. lia.
  - rewrite distance_cons. lia.
Qed.

Lemma distance_insert_le y s t : distance s (y :: t) ≤ distance s t + 1.
Proof.
  destruct s as [|x s].
  - rewrite !distance_nil_l. simpl. lia.
  - rewrite distance_cons. lia.
Qed.

(** ... and no script is shorter. *)
Lemma distance_le s t k : edits s t k → distance s t ≤ k.
Proof.
  induction 1 as [|x s t k _ IH|x y s t k _ IH|x s t k _ IH|y s t k _ IH].
  - done.
  - rewrite distance_cons. rewrite decide_True by done. lia.
  - rewrite distance_cons. destruct (decide (x = y)); lia.
  - pose proof (distance_delete_le x s t). lia.
  - pose proof (distance_insert_le y s t). lia.
Qed.

Lemma edits_snoc_keep x s t k : edits s t k → edits (s ++ [x]) (t ++ [x]) k.
Proof. induction 1; simpl; by repeat constructor. Qed.

Lemma edits_snoc_subst x y s t k : edits s t k → edits (s ++ [x]) (t ++ [y]) (S k).
Proof. induction 1; simpl; by repeat constructor. Qed.

Lemma edits_snoc_delete x s t k : edits s t k → edits (s ++ [x]) t (S k).
Proof. induction 1; simpl; by repeat constructor. Qed.

Lemma edits_snoc_insert y s t k : edits s t k → edits s (t ++ [y]) (S k).
Proof. induction 1; simpl; by repeat constructor. Qed.

Lemma edits_reverse s t k : edits s t k → edits (reverse s) (reverse t) k.
Proof.
  induction 1; rewrite ?reverse_cons;
    eauto using edits_nil, edits_snoc_keep, edits_snoc_subst,
      edits_snoc_delete, edits_snoc_insert.
Qed.

Lemma distance_reverse s t : distance (reverse s) (reverse t) = distance s t.
Proof.
  apply Nat.le_antisymm; apply distance_le.
  - apply edits_reverse, edits_distance.
  - rewrite <- (reverse_involutive s), <- (reverse_involutive t) at 1.
    apply edits_reverse, edits_distance.
Qed.

(** The recurrence read at the end of the strings, as the table does. *)
Lemma distance_snoc x y s t :
  distance (s ++ [x]) (t ++ [y]) =
  Nat.min (Nat.min (distance s (t ++ [y]) + 1) (distance (s ++ [x]) t + 1))
          (distance s t + (if decide (x = y) then 0 else 1)).
Proof.
  rewrite <- (distance_reverse (s ++ [x]) (t ++ [y])),
          <- (distance_reverse s (t ++ [y])),
          <- (distance_reverse (s ++ [x]) t),
          <- (distance_reverse s t).
  rewrite !reverse_snoc. apply distance_cons.
Qed.

Lemma distance_zero s t : distance s t = 0 ↔ s = t.
Proof.
  split.
  - revert t. induction s as [|x s IH]; intros [|y t]; try done.
    rewrite distance_cons. intros H.
    destruct (decide (x = y)) as [->|]; [|lia].
    f_equal. apply IH. lia.
  - intros <-. apply Nat.le_0_r. apply distance_le.
    induction s; by constructor.
Qed.

End Distance.

(** ** The dynamic-programming table *)

Section Table.
Implicit Types dp : list (list nat).

Lemma cell_set_eq dp i j v :
  i < length dp → j < length (dp !!! i) →
  (alter (<[j := v]>) i dp !!! i) !!! j = v.
Proof.
  intros Hi Hj. rewrite list_lookup_total_alter_eq by done.
  by rewrite list_lookup_total_insert_eq.
Qed.

Lemma cell_set_ne dp i j v i' j' :
  i' ≠ i ∨ j' ≠ j →
  (alter (<[j := v]>) i dp !!! i') !!! j' = (dp !!! i') !!! j'.
Proof.
  intros Hne. rewrite list_lookup_total_alter.
  case_decide as Hd; [|done]. destruct Hd as [<- _].
  rewrite list_lookup_total_insert_ne; [done|]. destruct Hne; congruence.
Qed.

Lemma table_shape_set a b dp i j v :
  table_shape a b dp → table_shape a b (alter (<[j := v]>) i dp).
Proof.
  intros [Hrows Hcols]. split; [by rewrite length_alter|].
  intros i' Hi'. rewrite list_lookup_total_alter.
  case_decide as Hd; [|by apply Hcols]. destruct Hd as [<- _].
  rewrite length_insert. by apply Hcols.
Qed.

Lemma table_shape_init (a b : list N) :
  table_shape a b (replicate (length a + 1) (replicate (length b + 1) 0)).
Proof.
  split; [by rewrite length_replicate|].
  intros i Hi. rewrite lookup_total_replicate_2 by lia.
  by rewrite length_replicate.
Qed.

Lemma distance_take_0_l (a b : list N) j :
  j ≤ length b → distance (take 0 a) (take j b) = j.
Proof. intros. rewrite take_0, distance_nil_l, length_take. lia. Qed.

Lemma distance_take_0_r (a b : list N) i :
  i ≤ length a → distance (take i a) (take 0 b) = i.
Proof. intros. rewrite take_0, distance_nil_r, length_take. lia. Qed.

(** The two border loops. *)
Lemma table_borders (a b : list N) :
  let dp0 := replicate (length a + 1) (replicate (length b + 1) 0) in
  let dp1 := for_loop 0 (length a + 1) (λ i dp, alter (<[0 := i]>) i dp) dp0 in
  let dp2 := for_loop 0 (length b + 1) (λ j dp, alter (<[j := j]>) 0 dp) dp1 in
  table_filled a b 1 1 dp2.
Proof.
  intros dp0 dp1 dp2.
  assert (table_shape a b dp1 ∧
          ∀ i', i' < 0 + (length a + 1) → (dp1 !!! i') !!! 0 = i') as [Hs1 Hc1].
  { apply (for_loop_invariant
      (λ i dp, table_shape a b dp ∧ ∀ i', i' < i → (dp !!! i') !!! 0 = i')).
    - split; [apply table_shape_init|lia].
    - intros i dp Hi [Hs Hc]. split; [by apply table_shape_set|].
      intros i' Hi'. destruct (decide (i' = i)) as [->|].
      + destruct Hs as [Hrows Hcols].
        apply cell_set_eq; [lia|]. rewrite Hcols; lia.
      + rewrite cell_set_ne by auto. apply Hc. lia. }
  assert (table_shape a b dp2 ∧
          (∀ i', i' ≤ length a → (dp2 !!! i') !!! 0 = i') ∧
          ∀ j', j' < 0 + (length b + 1) → (dp2 !!! 0) !!! j' = j')
    as (Hs2 & Hc2 & Hr2).
  { apply (for_loop_invariant
      (λ j dp, table_shape a b dp ∧
               (∀ i', i' ≤ length a → (dp !!! i') !!! 0 = i') ∧
               ∀ j', j' < j → (dp !!! 0) !!! j' = j')).
    - split; [done|]. split; [|lia]. intros i' Hi'. apply Hc1. lia.
    - intros j dp Hj (Hs & Hc & Hr).
      destruct Hs as [Hrows Hcols].
      split; [by apply table_shape_set|]. split.
      + intros i' Hi'.
        destruct (decide (i' = 0 ∧ 0 = j)) as [[-> <-]|Hne].
        * apply cell_set_eq; [lia|]. rewrite Hcols; lia.
        * rewrite cell_set_ne by (clear -Hne; lia). by apply Hc.
      + intros j' Hj'. destruct (decide (j' = j)) as [->|].
        * apply cell_set_eq; [lia|]. rewrite Hcols; lia.
        * rewrite cell_set_ne by auto. apply Hr. lia. }
  split; [done|]. intros i' j' Hi' Hj' Hcase.
  destruct (decide (j' = 0)) as [->|Hj0].
  - rewrite distance_take_0_r by done. by apply Hc2.
  - assert (i' = 0) as -> by lia.
    rewrite distance_take_0_l by done. apply Hr2. lia.
Qed.

(** One assignment of the double loop. *)
Lemma table_step (a b : list N) dp i j :
  1 ≤ i ≤ length a → 1 ≤ j ≤ length b →
  table_filled a b i j dp →
  table_filled a b i (S j)
    (alter (<[j := Nat.min (Nat.min ((dp !!! (i - 1)) !!! j + 1)
                                    ((dp !!! i) !!! (j - 1) + 1))
                           ((dp !!! (i - 1)) !!! (j - 1) +
                            (if decide (a !! (i - 1) = b !! (j - 1)) then 0 else 1))]>)
           i dp).
Proof.
  intros Hi Hj [Hs Hfill]. split; [by apply table_shape_set|].
  intros i' j' Hi' Hj' Hcase.
  destruct (decide (i' = i ∧ j' = j)) as [[-> ->]|Hne].
  - destruct Hs as [Hrows Hcols].
    rewrite cell_set_eq by (rewrite ?Hcols; lia).
    rewrite !Hfill by lia.
    destruct (lookup_lt_is_Some_2 a (i - 1)) as [x Hx]; [lia|].
    destruct (lookup_lt_is_Some_2 b (j - 1)) as [y Hy]; [lia|].
    rewrite Hx, Hy.
    destruct i as [|i]; [lia|]. destruct j as [|j]; [lia|].
    replace (S i - 1) with i in * by lia.
    replace (S j - 1) with j in * by lia.
    rewrite (take_S_r a i x), (take_S_r b j y) by done.
    rewrite distance_snoc.
    destruct (decide (x = y)) as [->|Hxy].
    + by rewrite decide_True.
    + rewrite decide_False; [done|congruence].
  - rewrite cell_set_ne by (clear -Hne; lia). apply Hfill; lia.
Qed.

(** The filled table: every cell holds the distance of its prefixes. *)
Lemma levenshtein_table_filled `{U : Unicode} (a b : list N) :
  table_filled a b (length a + 1) 1 (levenshtein_table a b).
Proof.
  unfold levenshtein_table.
  pose proof (table_borders a b) as Hborders. simpl in Hborders.
  replace (table_filled a b (length a + 1)) with (table_filled a b (1 + length a))
    by (f_equal; lia).
  apply (for_loop_invariant (λ i dp, table_filled a b i 1 dp)); [done|].
  intros i dp Hi Hdp.
  assert (table_filled a b i (1 + length b)
            (for_loop 1 (length b) (λ j dp,
               alter (<[j := Nat.min (Nat.min ((dp !!! (i - 1)) !!! j + 1)
                                             ((dp !!! i) !!! (j - 1) + 1))
                                    ((dp !!! (i - 1)) !!! (j - 1) +
                                     (if decide (a !! (i - 1) = b !! (j - 1))
                                      then 0 else 1))]>) i dp) dp))
    as [Hs Hfill].
  { apply (for_loop_invariant (λ j dp, table_filled a b i j dp)); [done|].
    intros j dp' Hj Hdp'. apply table_step; [lia|lia|done]. }
  split; [done|]. intros i' j' Hi' Hj' Hcase. apply Hfill; lia.
Qed.

End Table.

(** ** The edit distance of the program *)

Section Levenshtein.
Context `{U : Unicode}.

(** [levenshtein] is the recurrence on the canonical forms. *)
Lemma levenshtein_distance a b :
  levenshtein a b = distance (normalize (Str a)) (normalize (Str b)).
Proof.
  unfold levenshtein.
  set (a' := normalize (Str a)). set (b' := normalize (Str b)).
  destruct (decide (length a' = 0)) as [Ha|Ha].
  { apply nil_length_inv in Ha. by rewrite Ha, distance_nil_l. }
  destruct (decide (length b' = 0)) as [Hb|Hb].
  { apply nil_length_inv in Hb. by rewrite Hb, distance_nil_r. }
  destruct (levenshtein_table_filled a' b') as [_ Hfill].
  rewrite Hfill by lia. by rewrite !take_ge.
Qed.

Lemma levenshtein_zero a b :
  levenshtein a b = 0 ↔ normalize (Str a) = normalize (Str b).
Proof. rewrite levenshtein_distance. apply distance_zero. Qed.

End Levenshtein.

(** ** The stable sort *)

Section Sort.
Context {A : Type} (key : A → nat).

Local Abbreviation cmp := (λ a b : A, Z.of_nat (key a) - Z.of_nat (key b))%Z.

Lemma sort_insert_perm (c : A → A → Z) x l : sort_insert c x l ≡ₚ x :: l.
Proof.
  induction l as [|y l IH]; simpl; [done|].
  destruct (c x y <=? 0)%Z; [done|]. rewrite IH. apply Permutation_swap.
Qed.

Lemma sort_perm (c : A → A → Z) l : sort c l ≡ₚ l.
Proof.
  induction l as [|x l IH]; simpl; [done|].
  by rewrite sort_insert_perm, IH.
Qed.

Lemma sort_insert_sorted x l :
  StronglySorted (λ a b, key a ≤ key b) l →
  StronglySorted (λ a b, key a ≤ key b) (sort_insert cmp x l).
Proof.
  induction 1 as [|y l Hl IH Hy]; simpl.
  { repeat constructor. }
  destruct (Z.leb_spec (Z.of_nat (key x) - Z.of_nat (key y)) 0).
  - constructor; [by constructor|]. constructor; [lia|].
    eapply Forall_impl; [done|]. simpl. intros z ?. lia.
  - constructor; [done|].
    rewrite sort_insert_perm. constructor; [lia|done].
Qed.

Lemma sort_sorted l : StronglySorted (λ a b, key a ≤ key b) (sort cmp l).
Proof.
  induction l as [|x l IH]; simpl; [constructor|].
  by apply sort_insert_sorted.
Qed.

(** Elements with the same key stay in the order they came in. *)
Lemma sort_insert_stable k x l :
  filter (λ a, key a = k) (sort_insert cmp x l) = filter (λ a, key a = k) (x :: l).
Proof.
  induction l as [|y l IH]; simpl; [done|].
  destruct (Z.leb_spec (Z.of_nat (key x) - Z.of_nat (key y)) 0); [done|].
  rewrite (filter_cons _ y), IH, !filter_cons.
  repeat case_decide; try done; lia.
Qed.

Lemma sort_stable k l :
  filter (λ a, key a = k) (sort cmp l) = filter (λ a, key a = k) l.
Proof.
  induction l as [|x l IH]; simpl; [done|].
  by rewrite sort_insert_stable, !filter_cons, IH.
Qed.

(** Sorting records that carry the key, then dropping the key, is sorting
    by the key. *)
Lemma sort_decorated {B} (mk : A → B) (e : B → A) (d : B → nat) l :
  (∀ x, e (mk x) = x) → (∀ x, d (mk x) = key x) →
  e <$> sort (λ a b, Z.of_nat (d a) - Z.of_nat (d b))%Z (mk <$> l) = sort cmp l.
Proof.
  intros He Hd.
  assert (∀ x l, sort_insert (λ a b, Z.of_nat (d a) - Z.of_nat (d b))%Z (mk x) (mk <$> l)
                 = mk <$> sort_insert cmp x l) as Hins.
  { intros x l'. induction l' as [|y l' IH]; [done|].
    rewrite fmap_cons. cbn [sort_insert]. cbv beta. rewrite !Hd.
    destruct (Z.of_nat (key x) - Z.of_nat (key y) <=? 0)%Z; [done|].
    rewrite fmap_cons. by f_equal. }
  assert (sort (λ a b, Z.of_nat (d a) - Z.of_nat (d b))%Z (mk <$> l)
          = mk <$> sort cmp l) as ->.
  { induction l as [|x l IH]; [done|].
    rewrite fmap_cons. cbn [sort foldr]. rewrite <- Hins. f_equal. apply IH. }
  rewrite <- list_fmap_compose. rewrite <- (list_fmap_id (sort cmp l)) at 2.
  apply list_fmap_ext. intros ? x _. apply He.
Qed.

Lemma filter_decorated {B} (mk : A → B) (P : B → Prop) `{∀ x, Decision (P x)}
    (l : list A) :
  filter P (mk <$> l) = mk <$> filter (λ x, P (mk x)) l.
Proof.
  induction l as [|x l IH]; [done|].
  rewrite fmap_cons, !filter_cons, IH. by case_decide.
Qed.

End Sort.

(** ** String predicates *)

Section Strings.
Implicit Types s t : list N.

Lemma startsWith_prefix s t : startsWith s t ↔ t `prefix_of` s.
Proof.
  revert s. induction t as [|y t IH]; intros s; simpl.
  { split; [intros _; apply prefix_nil|done]. }
  destruct s as [|x s].
  { split; [done|]. intros H. by apply prefix_nil_not in H. }
  rewrite andb_True, IH. split.
  - intros [->%Is_true_true%N.eqb_eq ?]. by apply prefix_cons.
  - intros H. split.
    + apply prefix_cons_inv_1 in H as ->. apply Is_true_true, N.eqb_refl.
    + by apply prefix_cons_inv_2 in H.
Qed.

Lemma infix_of_alt t s : infix_of t s ↔ ∃ l r, s = l ++ t ++ r.
Proof.
  unfold infix_of. rewrite Exists_exists. split.
  - intros (i & _ & r & Hr). exists (take i s), r.
    by rewrite <- Hr, take_drop.
  - intros (l & r & ->). exists (length l). split.
    + apply elem_of_seq. rewrite !length_app. lia.
    + rewrite drop_app_length. by exists r.
Qed.

Lemma includes_infix s t : includes s t ↔ infix_of t s.
Proof.
  rewrite infix_of_alt. induction s as [|x s IH]; simpl.
  - rewrite orb_false_r, startsWith_prefix. split.
    + intros [r Hr]. by exists [], r.
    + intros (l & r & H). destruct l; [by exists r|done].
  - rewrite orb_True, startsWith_prefix, IH. split.
    + intros [[r Hr]|(l & r & Hr)]; [by exists [], r|].
      exists (x :: l), r. by rewrite Hr.
    + intros ([|x' l] & r & Hr); [left; by exists r|].
      right. exists l, r. by simplify_eq/=.
Qed.

End Strings.

(** ** The tiers of the search *)

Section Search.
Context `{U : Unicode}.
Implicit Types (sorted : list Entry) (query : list N).

Lemma filter_length_0 {A} (P : A → Prop) `{∀ x, Decision (P x)} (l : list A) :
  length (filter P l) = 0 ↔ ∀ x, x ∈ l → ¬ P x.
Proof.
  split.
  - intros Hl%nil_length_inv x Hx HP.
    by eapply filter_nil_not_elem_of.
  - intros Hall. induction l as [|x l IH]; [done|].
    rewrite filter_cons_False by (apply Hall; left).
    apply IH. intros y Hy. apply Hall. by right.
Qed.

Lemma fuzzy_distance_levenshtein query e :
  levenshtein (normalize (Str (trim query))) (begriff e) = fuzzy_distance query e.
Proof. apply levenshtein_distance. Qed.

(** What [results] returns once the first two tiers have found nothing
    and fuzzy matching is on. *)
Lemma results_fuzzy sorted query fuzzyTol :
  trim query ≠ [] →
  filter (λ e, normalize (Str (begriff e)) = normalize (Str (trim query))) sorted = [] →
  filter (λ e, includes (normalize (Str (begriff e))) (normalize (Str (trim query))))
    sorted = [] →
  results sorted query true fuzzyTol =
  sort (λ a b, Z.of_nat (fuzzy_distance query a) - Z.of_nat (fuzzy_distance query b))%Z
    (filter (λ e, (Z.of_nat (fuzzy_distance query e) ≤ fuzzyTol)%Z) sorted).
Proof.
  intros Hq Hexact Hpartial. unfold results.
  rewrite decide_False by done.
  rewrite Hexact, Hpartial. simpl.
  rewrite (filter_decorated
    (λ e, {| x_e := e; x_d := levenshtein (normalize (Str (trim query))) (begriff e) |})).
  rewrite (sort_decorated (fuzzy_distance query)); simpl.
  - f_equal. apply list_filter_iff. intros e. simpl.
    by rewrite fuzzy_distance_levenshtein.
  - done.
  - intros e. apply fuzzy_distance_levenshtein.
Qed.

End Search.

Section SearchMore.
Context `{U : Unicode}.
Implicit Types (sorted : list Entry) (query : list N).

Lemma includes_refl (s : list N) : includes s s.
Proof. apply includes_infix, infix_of_alt. exists [], []. by rewrite app_nil_r. Qed.

Lemma length_0_iff_nil {A} (l : list A) : length l ≠ 0 ↔ l ≠ [].
Proof. by destruct l. Qed.

(** The four ways out of [results], for a query that is not blank. *)
Lemma results_tiers sorted query fuzzy fuzzyTol :
  trim query ≠ [] →
  let nq := normalize (Str (trim query)) in
  let exact := filter (λ e, normalize (Str (begriff e)) = nq) sorted in
  let partial := filter (λ e, includes (normalize (Str (begriff e))) nq) sorted in
  results sorted query fuzzy fuzzyTol =
  if decide (exact ≠ []) then exact
  else if decide (partial ≠ []) then partial
  else if fuzzy then
    sort (λ a b, Z.of_nat (fuzzy_distance query a) - Z.of_nat (fuzzy_distance query b))%Z
      (filter (λ e, (Z.of_nat (fuzzy_distance query e) ≤ fuzzyTol)%Z) sorted)
  else [].
Proof.
  intros Hq nq exact partial.
  destruct (decide (exact ≠ [])) as [Hexact|Hexact].
  { unfold results. rewrite decide_False by done. fold nq exact.
    by rewrite decide_True by by apply length_0_iff_nil. }
  apply dec_stable in Hexact.
  destruct (decide (partial ≠ [])) as [Hpartial|Hpartial].
  { unfold results. rewrite decide_False by done. fold nq exact partial.
    rewrite Hexact. simpl. by rewrite decide_True by by apply length_0_iff_nil. }
  apply dec_stable in Hpartial.
  destruct fuzzy; [by apply results_fuzzy|].
  unfold results. rewrite decide_False by done. fold nq exact partial.
  by rewrite Hexact, Hpartial.
Qed.

End SearchMore.

Lemma results_submseteq `{U : Unicode} (sorted : list Entry) (query : list N)
    (fuzzy : bool) (fuzzyTol : Z) :
  results sorted query fuzzy fuzzyTol ⊆+ sorted.
Proof.
  destruct (decide (trim query = [])) as [Hq|Hq].
  { unfold results. by rewrite decide_True. }
  rewrite results_tiers by done.
  repeat case_decide; try apply sublist_submseteq, sublist_filter.
  destruct fuzzy; [|apply submseteq_nil_l].
  rewrite sort_perm. apply sublist_submseteq, sublist_filter.
Qed.

(** The substring tier and the search with fuzzy matching off, on the
    sample glossary. *)
Example results_substring_tier :
  @results UCD.ucd glossary (lit "gorithm") true 2
  = [entry "Algorithmus"; entry "Algorithmic"].
Proof. vm_compute. reflexivity. Qed.

Example results_fuzzy_off :
  @results UCD.ucd glossary (lit "Algoritmus") false 2 = [].
Proof. vm_compute. reflexivity. Qed.

(** ** The normalizer on the tables *)

Section Latin1.
Import UCD.
Implicit Types s : list N.

Lemma normalize_ucd s :
  @normalize ucd (Str s) =
  lower <$> filter (λ c, ¬ has Diacritic c) (reorder (s ≫= compatibility)).
Proof. reflexivity. Qed.

Lemma place_perm c placed : place c placed ≡ₚ c :: placed.
Proof.
  induction placed as [|p r IH]; simpl; [done|].
  destruct ((0 <? ccc c) && (ccc c <? ccc p))%N; [|done].
  rewrite IH. apply Permutation_swap.
Qed.

Lemma reorder_perm s : reorder s ≡ₚ s.
Proof.
  unfold reorder. rewrite reverse_Permutation.
  assert (∀ acc, foldl (λ placed c, place c placed) acc s ≡ₚ s ++ acc) as H.
  { induction s as [|c s IH]; intros acc; simpl; [done|].
    rewrite IH, place_perm. by rewrite Permutation_middle. }
  by rewrite H, app_nil_r.
Qed.

(** Starters are not moved. *)
Lemma reorder_starters s : Forall (λ c, ccc c = 0%N) s → reorder s = s.
Proof.
  intros Hs. unfold reorder.
  assert (∀ acc, foldl (λ placed c, place c placed) acc s = reverse s ++ acc) as H.
  { induction Hs as [|c s Hc _ IH]; intros acc; simpl; [done|].
    rewrite reverse_cons, <- app_assoc. simpl. rewrite <- IH. f_equal.
    destruct acc as [|p r]; simpl; [done|]. by rewrite Hc. }
  by rewrite H, app_nil_r, reverse_involutive.
Qed.

Lemma latin1_elem c : (c < 256)%N → c ∈ latin1.
Proof.
  intros Hc. unfold latin1. apply list_elem_of_fmap.
  exists (N.to_nat c). split; [by rewrite N2Nat.id|].
  apply elem_of_seq. lia.
Qed.

End Latin1.

(** ** Idempotence of the normalizer on the tables *)

Section Covered.
Import UCD.
Implicit Types s placed : list N.

Lemma covered_elem c : covered c → c ∈ latin1 ++ combining.
Proof.
  intros [Hc|Hc]; apply elem_of_app; [left; by apply latin1_elem|right].
  unfold combining. apply list_elem_of_fmap.
  exists (N.to_nat (c - 0x300)). split; [lia|]. apply elem_of_seq. lia.
Qed.

(** Checked on the rows of the tables. *)
Lemma covered_decomposition c0 c :
  covered c0 → c ∈ compatibility c0 → ¬ has Diacritic c →
  settled (lower c)
  ∧ (¬ kept_mark c0 → ccc (lower c) = 0%N).
Proof.
  intros Hc0 Hc Hdia.
  assert (Forall (λ c0, Forall (λ c, has Diacritic c
                                     || bool_decide (settled (lower c)
                                          ∧ (¬ kept_mark c0 → ccc (lower c) = 0%N)))
                          (compatibility c0)) (latin1 ++ combining)) as Hall.
  { eapply bool_decide_unpack. vm_compute. exact I. }
  rewrite Forall_forall in Hall. specialize (Hall c0 (covered_elem c0 Hc0)).
  rewrite Forall_forall in Hall. specialize (Hall c Hc).
  apply orb_True in Hall as [?|Hin]; [done|]. by apply bool_decide_unpack in Hin.
Qed.

Lemma covered_starters c0 c :
  covered c0 → ¬ removed_starter c0 → c ∈ compatibility c0 →
  ccc c = 0%N → ¬ has Diacritic c.
Proof.
  intros Hc0 Hrem Hc Hccc.
  assert (Forall (λ c0, removed_starter c0
                        ∨ Forall (λ c, ccc c = 0%N → ¬ has Diacritic c)
                            (compatibility c0)) (latin1 ++ combining)) as Hall.
  { eapply bool_decide_unpack. vm_compute. exact I. }
  rewrite Forall_forall in Hall.
  destruct (Hall c0 (covered_elem c0 Hc0)) as [?|Hc0']; [done|].
  rewrite Forall_forall in Hc0'. by apply Hc0'.
Qed.

(** Which code points these are. *)
Lemma covered_classes c :
  covered c →
  (kept_mark c ↔ (0x358 ≤ c ≤ 0x35C ∨ 0x363 ≤ c ≤ 0x36F)%N)
  ∧ (removed_starter c ↔ c = 0x5E%N ∨ c = 0x60%N ∨ c = 0xB7%N).
Proof.
  intros Hc.
  assert (Forall (λ c, (kept_mark c ↔ (0x358 ≤ c ≤ 0x35C ∨ 0x363 ≤ c ≤ 0x36F)%N)
                       ∧ (removed_starter c ↔ c = 0x5E%N ∨ c = 0x60%N ∨ c = 0xB7%N))
            (latin1 ++ combining)) as Hall.
  { eapply bool_decide_unpack. vm_compute. exact I. }
  rewrite Forall_forall in Hall. by apply Hall, covered_elem.
Qed.

Lemma ccc_lower c : ccc (lower c) = ccc c.
Proof.
  unfold lower. destruct (in_ranges upper_ranges c) eqn:Hup; [|done].
  assert (c < 256)%N as Hc.
  { unfold in_ranges, upper_ranges in Hup. simpl in Hup.
    repeat (apply orb_prop in Hup as [Hup|Hup]); try done;
      apply andb_prop in Hup as [_ Hup%N.leb_le]; lia. }
  assert (Forall (λ c, bool_decide (ccc (lower c) = ccc c)) latin1) as Hall.
  { eapply bool_decide_unpack. vm_compute. exact I. }
  rewrite Forall_forall in Hall. specialize (Hall c (latin1_elem c Hc)).
  apply bool_decide_unpack in Hall. unfold lower in Hall. by rewrite Hup in Hall.
Qed.

(** The second pass only restores the canonical order. *)
Lemma normalize_settled s :
  Forall settled s → @normalize ucd (Str s) = reorder s.
Proof.
  intros Hs. rewrite normalize_ucd.
  assert (s ≫= compatibility = s) as ->.
  { induction Hs as [|c s (Hc & _) _ IH]; [done|].
    rewrite bind_cons, Hc, IH. done. }
  assert (Forall settled (reorder s)) as Hr by (by rewrite reorder_perm).
  induction Hr as [|c r (_ & Hdia & Hlow) _ IH]; [done|].
  rewrite filter_cons_True by done. rewrite fmap_cons, Hlow. by f_equal.
Qed.

Lemma normalize_covered_settled s :
  Forall covered s → Forall settled (@normalize ucd (Str s)).
Proof.
  intros Hs. rewrite normalize_ucd. apply Forall_forall. intros x Hx.
  apply list_elem_of_fmap in Hx as (c & -> & Hc).
  apply list_elem_of_filter in Hc as [Hdia Hc].
  rewrite reorder_perm in Hc.
  apply list_elem_of_bind in Hc as (c0 & Hc & Hc0).
  rewrite Forall_forall in Hs.
  by eapply covered_decomposition; [apply Hs| |].
Qed.

Lemma normalize_covered_starters s :
  Forall covered s → Forall (λ c, ¬ kept_mark c) s →
  Forall (λ c, ccc c = 0%N) (@normalize ucd (Str s)).
Proof.
  intros Hs Hkept. rewrite normalize_ucd. apply Forall_forall. intros x Hx.
  apply list_elem_of_fmap in Hx as (c & -> & Hc).
  apply list_elem_of_filter in Hc as [Hdia Hc].
  rewrite reorder_perm in Hc.
  apply list_elem_of_bind in Hc as (c0 & Hc & Hc0).
  rewrite Forall_forall in Hs, Hkept.
  by eapply covered_decomposition; [apply Hs| | |apply Hkept].
Qed.

(** *** Canonical order *)

Lemma in_order_weaken k k' placed :
  (k' = 0 ∨ k ≠ 0 ∧ k ≤ k')%N → in_order k placed → in_order k' placed.
Proof.
  intros Hk. destruct placed as [|c r]; [done|]. simpl.
  intros [Hc Hr]. split; [lia|done].
Qed.

Lemma place_in_order k c placed :
  (k = 0 ∨ ccc c ≤ k)%N → in_order k placed → in_order k (place c placed).
Proof.
  revert k. induction placed as [|p r IH]; intros k Hk Hplaced; [by split|].
  destruct Hplaced as [Hp Hr]. simpl.
  destruct ((0 <? ccc c) && (ccc c <? ccc p))%N eqn:Hmove.
  - apply andb_prop in Hmove as [_ Hlt%N.ltb_lt].
    split; [done|]. apply IH; [lia|done].
  - apply andb_false_iff in Hmove.
    split; [done|]. split; [|done].
    destruct Hmove as [Hz%N.ltb_ge|Hge%N.ltb_ge]; lia.
Qed.

Lemma reorder_in_order s : in_order 0 (reverse (reorder s)).
Proof.
  unfold reorder. rewrite reverse_involutive.
  assert (∀ acc, in_order 0 acc → in_order 0 (foldl (λ placed c, place c placed) acc s))
    as H; [|by apply H].
  induction s as [|c s IH]; intros acc Hacc; [done|].
  simpl. apply IH. apply place_in_order; [by left|done].
Qed.

Lemma in_order_reorder s : in_order 0 (reverse s) → reorder s = s.
Proof.
  intros Hs. unfold reorder.
  assert (foldl (λ placed c, place c placed) [] s = reverse s) as ->;
    [|apply reverse_involutive].
  induction s as [|c s IH] using rev_ind; [done|].
  rewrite reverse_snoc in Hs. destruct Hs as [_ Hs].
  rewrite foldl_snoc, reverse_snoc.
  rewrite IH by (eapply in_order_weaken; [|exact Hs]; by left).
  destruct (reverse s) as [|p r]; [done|]. simpl.
  destruct Hs as [Hp _].
  destruct ((0 <? ccc c) && (ccc c <? ccc p))%N eqn:Hmove; [|done].
  apply andb_prop in Hmove as [Hz%N.ltb_lt Hlt%N.ltb_lt]. lia.
Qed.

Lemma in_order_filter (P : N → Prop) `{∀ c, Decision (P c)} k placed :
  Forall (λ c, ccc c = 0%N → P c) placed →
  in_order k placed → in_order k (filter P placed).
Proof.
  intros Hkeep. revert k.
  induction Hkeep as [|c r Hc _ IH]; intros k Hplaced; [done|].
  destruct Hplaced as [Hk Hr]. destruct (decide (P c)) as [HP|HP].
  - rewrite filter_cons_True by done. split; [done|by apply IH].
  - rewrite filter_cons_False by done.
    apply (in_order_weaken (ccc c)); [|by apply IH].
    assert (ccc c ≠ 0%N) by (intros Hz; by apply HP, Hc). lia.
Qed.

Lemma in_order_lower k placed : in_order k placed → in_order k (lower <$> placed).
Proof.
  revert k. induction placed as [|c r IH]; intros k; [done|].
  intros [Hk Hr]. rewrite fmap_cons. simpl. rewrite ccc_lower. split; [done|by apply IH].
Qed.

Lemma normalize_covered_in_order s :
  Forall covered s → Forall (λ c, ¬ removed_starter c) s →
  in_order 0 (reverse (@normalize ucd (Str s))).
Proof.
  intros Hs Hrem. rewrite normalize_ucd.
  rewrite <- fmap_reverse, <- filter_reverse.
  apply in_order_lower, in_order_filter; [|apply reorder_in_order].
  apply Forall_forall. intros c Hc Hccc.
  rewrite reverse_Permutation, reorder_perm in Hc.
  apply list_elem_of_bind in Hc as (c0 & Hc & Hc0).
  rewrite Forall_forall in Hs, Hrem.
  by eapply covered_starters; [apply Hs|apply Hrem| |].
Qed.

Lemma normalize_twice s :
  Forall covered s →
  @normalize ucd (Str (@normalize ucd (Str s))) = reorder (@normalize ucd (Str s)).
Proof. intros Hs. by apply normalize_settled, normalize_covered_settled. Qed.

Lemma normalize_idempotent s :
  Forall covered s →
  Forall (λ c, ¬ kept_mark c) s ∨ Forall (λ c, ¬ removed_starter c) s →
  @normalize ucd (Str (@normalize ucd (Str s))) = @normalize ucd (Str s).
Proof.
  intros Hs Hcases. rewrite normalize_twice by done.
  destruct Hcases as [Hkept|Hrem].
  - by apply reorder_starters, normalize_covered_starters.
  - by apply in_order_reorder, normalize_covered_in_order.
Qed.

End Covered.

(** ** The term collection *)

Section Collection.
Context `{U : Unicode}.
Implicit Types (xs prev parsed : list Entry) (p : Entry).

Local Abbreviation term := (λ e : Entry, normalize (Str (begriff e))).

(** An upsert replaces the first entry with the canonical term of [p], or
    appends [p] when there is none. *)
Lemma upsert_found p xs i x :
  xs !! i = Some x → term x = term p →
  (∀ j y, xs !! j = Some y → j < i → term y ≠ term p) →
  upsert p xs = <[i := p]> xs.
Proof.
  intros Hi Hx Hfirst. unfold upsert, findIndex.
  assert (list_find (λ x, term x = term p) xs = Some (i, x)) as ->
    by by apply list_find_Some.
  rewrite decide_True by lia. by rewrite Nat2Z.id.
Qed.

Lemma upsert_fresh p xs :
  (∀ x, x ∈ xs → term x ≠ term p) → upsert p xs = xs ++ [p].
Proof.
  intros Hfresh. unfold upsert, findIndex.
  assert (list_find (λ x, term x = term p) xs = None) as ->.
  { apply list_find_None, Forall_forall. intros x Hx. by apply Hfresh. }
  by rewrite decide_False by lia.
Qed.

Lemma upsert_cases p xs :
  (∃ i x, xs !! i = Some x ∧ term x = term p ∧ upsert p xs = <[i := p]> xs)
  ∨ ((∀ x, x ∈ xs → term x ≠ term p) ∧ upsert p xs = xs ++ [p]).
Proof.
  destruct (list_find (λ x, term x = term p) xs) as [[i x]|] eqn:Hfind.
  - apply list_find_Some in Hfind as (Hi & Hx & Hfirst).
    left. exists i, x. split; [done|]. split; [done|].
    by eapply upsert_found.
  - apply list_find_None in Hfind. rewrite Forall_forall in Hfind.
    right. split; [done|]. by apply upsert_fresh.
Qed.

(** The canonical terms after an upsert: unchanged, or one more. *)
Lemma upsert_terms p xs :
  term <$> upsert p xs = term <$> xs
  ∨ ((term p ∉ term <$> xs) ∧ term <$> upsert p xs = (term <$> xs) ++ [term p]).
Proof.
  destruct (upsert_cases p xs) as [(i & x & Hi & Hx & ->)|[Hfresh ->]].
  - left. rewrite list_fmap_insert. apply list_insert_id.
    by rewrite list_lookup_fmap, Hi, <- Hx.
  - right. split; [|by rewrite fmap_app].
    intros (x & Hx & Hin)%list_elem_of_fmap. by eapply Hfresh.
Qed.

Lemma upsert_unique p xs : unique_terms xs → unique_terms (upsert p xs).
Proof.
  unfold unique_terms. intros Hxs.
  destruct (upsert_terms p xs) as [->|[Hfresh ->]]; [done|].
  apply NoDup_app. split; [done|]. split; [|apply NoDup_singleton].
  intros t Ht ->%list_elem_of_singleton. done.
Qed.

(** Last write wins: the record is in the collection afterwards. *)
Lemma upsert_elem p xs : p ∈ upsert p xs.
Proof.
  destruct (upsert_cases p xs) as [(i & x & Hi & _ & ->)|[_ ->]].
  - apply list_elem_of_lookup. exists i.
    apply list_lookup_insert_eq. by eapply lookup_lt_Some.
  - apply elem_of_app. right. by left.
Qed.

(** The first form of the application keeps the record it has. *)
Lemma addEntry_unique (newEntry : Entry) prev :
  unique_terms prev → unique_terms (addEntry newEntry prev).
Proof.
  unfold addEntry, unique_terms. intros Hprev.
  case_decide; [done|]. case_decide as Hexists; [done|].
  rewrite fmap_app. apply NoDup_app. split; [done|].
  split; [|apply NoDup_singleton].
  intros t (x & Ht & Hx)%list_elem_of_fmap Ht'%list_elem_of_singleton.
  apply Hexists, Exists_exists. exists x. split; [done|]. congruence.
Qed.

(** The merge of a CSV import keeps the canonical terms distinct. *)
Lemma importMerge_unique parsed prev :
  unique_terms prev → unique_terms (importMerge parsed prev).
Proof.
  unfold importMerge. revert prev.
  induction parsed as [|p parsed IH]; intros prev Hprev; simpl; [done|].
  apply IH. case_decide; [done|]. by apply upsert_unique.
Qed.

(** Saving a new entry keeps the canonical terms distinct. *)
Lemma saveEditor_create_unique st st' :
  editorMode st = create ∨ editorIndex st = None →
  unique_terms (entries st) → saveEditor st = Some st' →
  unique_terms (entries st').
Proof.
  intros Hmode Hunique. unfold saveEditor.
  case_decide; [by intros [= <-]|].
  assert (∀ y, match editorMode st, editorIndex st with
               | edit, Some i => array_set (entries st) i y
               | _, _ => Some (upsert y (entries st))
               end = Some (upsert y (entries st))) as ->.
  { intros y. destruct Hmode as [->| ->]; [done|]. by destruct (editorMode st). }
  simpl. intros [= <-]. simpl. by apply upsert_unique.
Qed.

(** [removeEntry] keeps the entries with another canonical term, in their
    order, and no other. *)
Lemma removeEntry_spec (begr : list N) prev :
  removeEntry begr prev `sublist_of` prev
  ∧ (∀ e, e ∈ removeEntry begr prev ↔ e ∈ prev ∧ term e ≠ normalize (Str begr))
  ∧ filter (λ e, term e ≠ normalize (Str begr)) (removeEntry begr prev)
    = filter (λ e, term e ≠ normalize (Str begr)) prev
  ∧ filter (λ e, term e = normalize (Str begr)) (removeEntry begr prev) = [].
Proof.
  unfold removeEntry. split; [apply sublist_filter|].
  split; [intros e; rewrite list_elem_of_filter; tauto|].
  split.
  - rewrite list_filter_filter. apply list_filter_iff. intros e. tauto.
  - rewrite list_filter_filter.
    induction prev as [|e prev IH]; [done|].
    rewrite filter_cons_False by tauto. done.
Qed.

(** On a collection with distinct canonical terms, deleting the selected
    entry by its term as written is deleting it by its canonical term. *)
Lemma deleteSelected_removeEntry (selected : Entry) prev :
  unique_terms prev → selected ∈ prev →
  deleteSelected selected prev = removeEntry (begriff selected) prev.
Proof.
  intros Hunique Hsel. unfold deleteSelected, removeEntry.
  assert (∀ e, e ∈ prev → term e = term selected → e = selected) as Hinj.
  { intros e (i & Hi)%list_elem_of_lookup Heq.
    apply list_elem_of_lookup in Hsel as (j & Hj).
    assert (i = j) as ->; [|congruence].
    apply (NoDup_lookup _ i j (term e) Hunique).
    - by rewrite list_lookup_fmap, Hi.
    - by rewrite list_lookup_fmap, Hj, Heq. }
  clear Hunique Hsel. induction prev as [|e prev IH]; [done|].
  rewrite !filter_cons, IH by (intros; apply Hinj; [by right|done]).
  destruct (decide (begriff e = begriff selected)) as [Heq|Hne].
  - rewrite decide_False, decide_False; [done| |]; rewrite ?Heq; tauto.
  - rewrite decide_True, decide_True; [done| |done].
    intros Heq. apply Hne. f_equal. apply Hinj; [by left|done].
Qed.

End Collection.

(** * The properties of the specification *)

(** C1. For a query that is not empty after trimming, as soon as one entry's
    normalized term equals the normalized query the search returns exactly
    the entries with that property, in input order, whatever the fuzzy flag
    and tolerance and whatever the substring tier would have found. *)
Theorem results_exact_tier `{U : Unicode} (sorted : list Entry) (query : list N)
    (fuzzy : bool) (fuzzyTol : Z) :
  trim query ≠ [] →
  (∃ e, e ∈ sorted ∧ normalize (Str (begriff e)) = normalize (Str (trim query))) →
  results sorted query fuzzy fuzzyTol =
  filter (λ e, normalize (Str (begriff e)) = normalize (Str (trim query))) sorted.
Proof.
  intros Hq (e & He & Heq). unfold results.
  rewrite decide_False by done. rewrite decide_True; [done|].
  intros Hlen. by eapply (proj1 (filter_length_0 _ sorted)).
Qed.

Lemma results_exact_tier_witness :
  trim (lit "Algorithmus") ≠ [] ∧
  (∃ e, e ∈ glossary ∧
        @normalize UCD.ucd (Str (begriff e))
        = @normalize UCD.ucd (Str (trim (lit "Algorithmus")))) ∧
  @results UCD.ucd glossary (lit "Algorithmus") true 2 = [entry "Algorithmus"].
Proof.
  assert (trim (lit "Algorithmus") ≠ []) as Hq by (vm_compute; discriminate).
  assert (∃ e, e ∈ glossary ∧
               @normalize UCD.ucd (Str (begriff e))
               = @normalize UCD.ucd (Str (trim (lit "Algorithmus")))) as Hex.
  { exists (entry "Algorithmus"). split; [left|reflexivity]. }
  split; [exact Hq|]. split; [exact Hex|].
  rewrite (@results_exact_tier UCD.ucd glossary (lit "Algorithmus") true 2 Hq Hex).
  vm_compute. reflexivity.
Defined.

(** C2, as the program has it. For a query that is not empty after
    trimming, with fuzzy matching on and nothing found by the exact and the
    substring tier, the search returns exactly the entries whose distance is
    at most the tolerance, in ascending order of distance, entries at the
    same distance in input order. The distance is the edit distance between
    the normalized query normalized once more and the normalized term; it
    is the distance between the normalized query and the normalized term
    whenever normalizing the normalized query changes nothing. *)
Theorem results_fuzzy_tier `{U : Unicode} (sorted : list Entry) (query : list N)
    (fuzzyTol : Z) :
  trim query ≠ [] →
  filter (λ e, normalize (Str (begriff e)) = normalize (Str (trim query))) sorted = [] →
  filter (λ e, includes (normalize (Str (begriff e))) (normalize (Str (trim query))))
    sorted = [] →
  let r := results sorted query true fuzzyTol in
  let within := filter (λ e, (Z.of_nat (fuzzy_distance query e) ≤ fuzzyTol)%Z) sorted in
  r ≡ₚ within
  ∧ StronglySorted (λ e1 e2, fuzzy_distance query e1 ≤ fuzzy_distance query e2) r
  ∧ (∀ k, filter (λ e, fuzzy_distance query e = k) r
          = filter (λ e, fuzzy_distance query e = k) within)
  ∧ (normalize (Str (normalize (Str (trim query)))) = normalize (Str (trim query)) →
     ∀ e, fuzzy_distance query e = fuzzy_distance_spec query e).
Proof.
  intros Hq Hexact Hpartial r within. subst r.
  rewrite results_fuzzy by done. fold within.
  split; [apply sort_perm|]. split; [apply sort_sorted|].
  split; [intros k; apply sort_stable|].
  intros Hidem e. unfold fuzzy_distance, fuzzy_distance_spec. by rewrite Hidem.
Qed.

Lemma results_fuzzy_tier_witness :
  trim (lit "Algoritmus") ≠ [] ∧
  filter (λ e, @normalize UCD.ucd (Str (begriff e))
               = @normalize UCD.ucd (Str (trim (lit "Algoritmus")))) glossary = [] ∧
  filter (λ e, includes (@normalize UCD.ucd (Str (begriff e)))
                        (@normalize UCD.ucd (Str (trim (lit "Algoritmus"))))) glossary
    = [] ∧
  @results UCD.ucd glossary (lit "Algoritmus") true 2 = [entry "Algorithmus"] ∧
  @fuzzy_distance UCD.ucd (lit "Algoritmus") (entry "Algorithmus") = 1 ∧
  @results UCD.ucd glossary (lit "Algoritmus") true 2
    ≡ₚ filter (λ e, (Z.of_nat (@fuzzy_distance UCD.ucd (lit "Algoritmus") e) ≤ 2)%Z)
         glossary.
Proof.
  assert (trim (lit "Algoritmus") ≠ []) as Hq by (vm_compute; discriminate).
  assert (filter (λ e, @normalize UCD.ucd (Str (begriff e))
                       = @normalize UCD.ucd (Str (trim (lit "Algoritmus")))) glossary
          = []) as Hexact by (vm_compute; reflexivity).
  assert (filter (λ e, includes (@normalize UCD.ucd (Str (begriff e)))
                         (@normalize UCD.ucd (Str (trim (lit "Algoritmus")))))
            glossary = []) as Hpartial by (vm_compute; reflexivity).
  split; [exact Hq|]. split; [exact Hexact|]. split; [exact Hpartial|].
  split; [vm_compute; reflexivity|].
  split; [rewrite <- fuzzy_distance_levenshtein; vm_compute; reflexivity|].
  exact (proj1 (@results_fuzzy_tier UCD.ucd glossary (lit "Algoritmus") 2
                  Hq Hexact Hpartial)).
Defined.

(** C2 as stated fails: the query U+035B U+005E U+0359 against the term
    U+035B U+0359, tolerance 1. Neither the exact nor the substring tier
    matches and the search returns the entry, yet the distance between the
    normalized query and the normalized term is 2. *)
Lemma results_fuzzy_tier_counterexample :
  trim zigzag_query ≠ [] ∧
  filter (λ e, @normalize UCD.ucd (Str (begriff e))
               = @normalize UCD.ucd (Str (trim zigzag_query)))
    [entry_of [0x35B; 0x359]%N] = [] ∧
  filter (λ e, includes (@normalize UCD.ucd (Str (begriff e)))
                        (@normalize UCD.ucd (Str (trim zigzag_query))))
    [entry_of [0x35B; 0x359]%N] = [] ∧
  @results UCD.ucd [entry_of [0x35B; 0x359]%N] zigzag_query true 1
    = [entry_of [0x35B; 0x359]%N] ∧
  @fuzzy_distance_spec UCD.ucd zigzag_query (entry_of [0x35B; 0x359]%N) = 2 ∧
  filter (λ e, (Z.of_nat (@fuzzy_distance_spec UCD.ucd zigzag_query e) ≤ 1)%Z)
    [entry_of [0x35B; 0x359]%N] = [] ∧
  ¬ (@results UCD.ucd [entry_of [0x35B; 0x359]%N] zigzag_query true 1
     ≡ₚ filter (λ e, (Z.of_nat (@fuzzy_distance_spec UCD.ucd zigzag_query e) ≤ 1)%Z)
          [entry_of [0x35B; 0x359]%N]).
Proof.
  assert (@results UCD.ucd [entry_of [0x35B; 0x359]%N] zigzag_query true 1
          = [entry_of [0x35B; 0x359]%N]) as Hres by (vm_compute; reflexivity).
  assert (filter (λ e, (Z.of_nat (@fuzzy_distance_spec UCD.ucd zigzag_query e) ≤ 1)%Z)
            [entry_of [0x35B; 0x359]%N] = []) as Hspec by (vm_compute; reflexivity).
  split; [vm_compute; discriminate|].
  split; [vm_compute; reflexivity|]. split; [vm_compute; reflexivity|].
  split; [exact Hres|]. split; [vm_compute; reflexivity|]. split; [exact Hspec|].
  rewrite Hres, Hspec. intros Hperm. by apply Permutation_nil_r in Hperm.
Qed.

(** C3, as the program has it. [normalize] treats [null] and [undefined]
    as the empty string, which it maps to the empty string; on a string it
    applies the compatibility decomposition NFKD, removes every code point
    that has the Unicode property Diacritic and lower-cases the rest, so
    that "Café" becomes "cafe". It is defined on every input. *)
Theorem normalize_pipeline :
  (∀ U : Unicode,
     normalize Undefined = normalize (Str [])
     ∧ normalize Null = normalize (Str [])
     ∧ ∀ s : list N, normalize (Str s)
                     = toLowerCase (removeProperty Diacritic (normalizeForm NFKD s)))
  ∧ @normalize UCD.ucd Undefined = []
  ∧ @normalize UCD.ucd Null = []
  ∧ @normalize UCD.ucd (Str []) = []
  ∧ @normalize UCD.ucd (Str [0x43; 0x61; 0x66; 0xE9]%N) = lit "cafe".
Proof.
  split; [intros U; by repeat split|].
  repeat split; vm_compute; reflexivity.
Qed.

(** C3 as stated fails, three ways: "^" has the property Diacritic and is
    no combining mark, so the program drops it and the specification keeps
    it; superscript two has a compatibility decomposition and no canonical
    one, so the program turns it into "2"; U+035B is a combining mark
    without the property Diacritic, so the program keeps it. *)
Lemma normalize_pipeline_counterexample :
  @normalize UCD.ucd (Str (lit "a^b")) = lit "ab"
  ∧ @normalize_spec UCD.ucd (Str (lit "a^b")) = lit "a^b"
  ∧ @normalize UCD.ucd (Str [0xB2]%N) = lit "2"
  ∧ @normalize_spec UCD.ucd (Str [0xB2]%N) = [0xB2]%N
  ∧ @normalize UCD.ucd (Str [0x35B]%N) = [0x35B]%N
  ∧ @normalize_spec UCD.ucd (Str [0x35B]%N) = []
  ∧ @normalize UCD.ucd (Str (lit "a^b")) ≠ @normalize_spec UCD.ucd (Str (lit "a^b")).
Proof.
  do 6 (split; [vm_compute; reflexivity|]). vm_compute. discriminate.
Qed.

(** C4 at the input where the program breaks it. Two entries, "Alpha" and
    "Beta", have distinct canonical terms; the editor is opened on "Beta",
    the term is changed to "alpha" and saved. [saveEditor] in edit mode
    writes at the index without looking for the canonical term, and the
    collection then holds "Alpha" and "alpha", whose canonical terms are
    equal. *)
Theorem saveEditor_edit_duplicates :
  @unique_terms UCD.ucd (entries rename_state)
  ∧ ∃ st', @saveEditor UCD.ucd rename_state = Some st'
           ∧ entries st' = [entry "Alpha"; entry "alpha"]
           ∧ ¬ @unique_terms UCD.ucd (entries st').
Proof.
  split; [eapply bool_decide_unpack; vm_compute; exact I|].
  eexists. split; [vm_compute; reflexivity|]. split; [reflexivity|].
  eapply bool_decide_unpack. vm_compute. exact I.
Qed.

(** C5, on the code points of the tables (U+0000..U+00FF and
    U+0300..U+036F). Normalizing a normalized string only puts its
    combining marks in canonical order. So normalizing twice is
    normalizing once for every string that holds no combining mark without
    the property Diacritic (U+0358..U+035C, U+0363..U+036F), and for every
    string that holds none of the characters that have the property
    Diacritic, are no combining marks and have no decomposition (U+005E,
    U+0060, U+00B7): for all Latin-1 text, with or without combining
    accents. *)
Theorem normalize_idempotent_covered (s : list N) :
  Forall UCD.covered s →
  @normalize UCD.ucd (Str (@normalize UCD.ucd (Str s)))
  = UCD.reorder (@normalize UCD.ucd (Str s))
  ∧ (Forall (λ c, ¬ UCD.kept_mark c) s ∨ Forall (λ c, ¬ UCD.removed_starter c) s →
     @normalize UCD.ucd (Str (@normalize UCD.ucd (Str s))) = @normalize UCD.ucd (Str s))
  ∧ Forall (λ c, (UCD.kept_mark c ↔ (0x358 ≤ c ≤ 0x35C ∨ 0x363 ≤ c ≤ 0x36F)%N)
                 ∧ (UCD.removed_starter c ↔ c = 0x5E%N ∨ c = 0x60%N ∨ c = 0xB7%N)) s.
Proof.
  intros Hs. split; [by apply normalize_twice|].
  split; [by apply normalize_idempotent|].
  eapply Forall_impl; [exact Hs|]. apply covered_classes.
Qed.

Lemma normalize_idempotent_covered_witness :
  Forall UCD.covered [0x43; 0x61; 0x66; 0x65; 0x301; 0x5E; 0xC9]%N
  ∧ Forall (λ c, ¬ UCD.kept_mark c) [0x43; 0x61; 0x66; 0x65; 0x301; 0x5E; 0xC9]%N
  ∧ @normalize UCD.ucd
      (Str (@normalize UCD.ucd (Str [0x43; 0x61; 0x66; 0x65; 0x301; 0x5E; 0xC9]%N)))
    = @normalize UCD.ucd (Str [0x43; 0x61; 0x66; 0x65; 0x301; 0x5E; 0xC9]%N).
Proof.
  assert (Forall UCD.covered [0x43; 0x61; 0x66; 0x65; 0x301; 0x5E; 0xC9]%N) as Hs
    by (repeat constructor; unfold UCD.covered; lia).
  assert (Forall (λ c, ¬ UCD.kept_mark c) [0x43; 0x61; 0x66; 0x65; 0x301; 0x5E; 0xC9]%N)
    as Hkept by (eapply bool_decide_unpack; vm_compute; exact I).
  split; [exact Hs|]. split; [exact Hkept|].
  exact (proj1 (proj2 (normalize_idempotent_covered _ Hs)) (or_introl Hkept)).
Defined.

(** C5 as stated fails: normalizing U+035B U+005E U+0359 removes the
    circumflex accent and leaves U+035B U+0359, which normalizing once more
    puts in canonical order, U+0359 U+035B. *)
Lemma normalize_idempotent_counterexample :
  @normalize UCD.ucd (Str zigzag_query) = [0x35B; 0x359]%N
  ∧ @normalize UCD.ucd (Str (@normalize UCD.ucd (Str zigzag_query))) = [0x359; 0x35B]%N
  ∧ @normalize UCD.ucd (Str (@normalize UCD.ucd (Str zigzag_query)))
    ≠ @normalize UCD.ucd (Str zigzag_query).
Proof. split; [|split]; [by vm_compute..|]. vm_compute. discriminate. Qed.

(** C6. [levenshtein] is the classic unit-cost edit distance of the
    normalized forms of its arguments: the value of the recurrence, reached
    by an edit script and by none shorter, read from the last cell of a
    table of (len(a)+1) rows and (len(b)+1) columns whose every cell holds
    the distance of the prefixes it stands for. With one normalized string
    empty it is the length of the other; the distance is 0 between "" and
    "", 3 between "" and "abc", 3 between "kitten" and "sitting". *)
Theorem levenshtein_classic :
  (∀ (U : Unicode) (a b : list N),
     let a' := normalize (Str a) in
     let b' := normalize (Str b) in
     levenshtein a b = distance a' b'
     ∧ edits a' b' (levenshtein a b)
     ∧ (∀ k, edits a' b' k → levenshtein a b ≤ k)
     ∧ table_shape a' b' (levenshtein_table a' b')
     ∧ (∀ i j, i ≤ length a' → j ≤ length b' →
          (levenshtein_table a' b' !!! i) !!! j = distance (take i a') (take j b'))
     ∧ levenshtein a b = (levenshtein_table a' b' !!! length a') !!! length b'
     ∧ (a' = [] → levenshtein a b = length b')
     ∧ (b' = [] → levenshtein a b = length a'))
  ∧ @levenshtein UCD.ucd (lit "") (lit "") = 0
  ∧ @levenshtein UCD.ucd (lit "") (lit "abc") = 3
  ∧ @levenshtein UCD.ucd (lit "kitten") (lit "sitting") = 3.
Proof.
  split; [|by vm_compute].
  intros U a b a' b'.
  pose proof (levenshtein_distance a b) as Hd. fold a' b' in Hd.
  destruct (levenshtein_table_filled a' b') as [Hshape Hfill].
  assert (∀ i j, i ≤ length a' → j ≤ length b' →
            (levenshtein_table a' b' !!! i) !!! j = distance (take i a') (take j b'))
    as Hcells by (intros i j Hi Hj; apply Hfill; lia).
  rewrite Hd. repeat split.
  - apply edits_distance.
  - intros k. apply distance_le.
  - apply Hshape.
  - apply Hshape.
  - done.
  - rewrite Hcells by done. by rewrite !take_ge.
  - intros ->. apply distance_nil_l.
  - intros ->. apply distance_nil_r.
Qed.

Lemma levenshtein_classic_witness :
  edits (@normalize UCD.ucd (Str (lit "kitten")))
        (@normalize UCD.ucd (Str (lit "sitting"))) 3 ∧
  @levenshtein UCD.ucd (lit "kitten") (lit "sitting") ≤ 3.
Proof.
  assert (edits (@normalize UCD.ucd (Str (lit "kitten")))
                (@normalize UCD.ucd (Str (lit "sitting"))) 3) as Hscript.
  { vm_compute.
    apply edits_subst, edits_keep, edits_keep, edits_keep, edits_subst,
      edits_keep, edits_insert, edits_nil. }
  split; [exact Hscript|].
  exact (proj1 (proj2 (proj2 (proj1 levenshtein_classic UCD.ucd
                                (lit "kitten") (lit "sitting")))) 3 Hscript).
Defined.

(** C7 at the input where the program breaks it. "Cafe" and "cafe" have the
    same canonical term; the delete button of [App.tsx] on "Cafe" compares
    the terms as written and leaves "cafe" in the collection, where
    [removeEntry] removes both. *)
Theorem deleteSelected_keeps_other_spelling :
  @normalize UCD.ucd (Str (lit "cafe")) = @normalize UCD.ucd (Str (lit "Cafe"))
  ∧ deleteSelected (entry "Cafe") [entry "Cafe"; entry "cafe"] = [entry "cafe"]
  ∧ @removeEntry UCD.ucd (lit "Cafe") [entry "Cafe"; entry "cafe"] = [].
Proof. repeat split; vm_compute; reflexivity. Qed.

(** C8, as the program has it. The suggestions are the entries whose
    normalized term starts with the normalized query, in input order, then
    those whose normalized term contains it without starting with it, in
    input order, cut to the first 8; a query whose normalized form is empty,
    the empty query among them, has no suggestions. *)
Theorem suggestions_ranking `{U : Unicode} (sorted : list Entry) (query : list N) :
  let nq := normalize (Str query) in
  let term e := normalize (Str (begriff e)) in
  (nq = [] → suggestions sorted query = [])
  ∧ (nq ≠ [] →
     suggestions sorted query =
     take 8 (filter (λ e, nq `prefix_of` term e) sorted ++
             filter (λ e, ¬ nq `prefix_of` term e ∧ infix_of nq (term e)) sorted))
  ∧ length (suggestions sorted query) ≤ 8
  ∧ @suggestions UCD.ucd sorted [] = [].
Proof.
  intros nq term. unfold suggestions. fold nq.
  split; [intros Hnq; by rewrite decide_True|].
  split; [|split; [|done]].
  - intros Hnq. rewrite decide_False by done. f_equal. f_equal.
    + apply list_filter_iff. intros e. apply startsWith_prefix.
    + apply list_filter_iff. intros e.
      by rewrite startsWith_prefix, includes_infix.
  - case_decide; [simpl; lia|]. rewrite length_take. lia.
Qed.

Lemma suggestions_ranking_witness :
  @normalize UCD.ucd (Str (lit "ber")) ≠ [] ∧
  @suggestions UCD.ucd berichte (lit "ber") = [entry "Bericht"; entry "Berater"].
Proof.
  assert (@normalize UCD.ucd (Str (lit "ber")) ≠ []) as Hnq
    by (vm_compute; discriminate).
  split; [exact Hnq|].
  rewrite (proj1 (proj2 (@suggestions_ranking UCD.ucd berichte (lit "ber"))) Hnq).
  vm_compute. reflexivity.
Defined.

(** C8 as stated fails: the query "^" is not empty, every normalized term
    starts with its normalized form, the empty string, and yet there is no
    suggestion. *)
Lemma suggestions_ranking_counterexample :
  lit "^" ≠ [] ∧
  @suggestions UCD.ucd berichte (lit "^") = [] ∧
  @suggest_spec UCD.ucd berichte (lit "^") = berichte ∧
  @suggestions UCD.ucd berichte (lit "^") ≠ @suggest_spec UCD.ucd berichte (lit "^").
Proof.
  split; [vm_compute; discriminate|]. do 2 (split; [vm_compute; reflexivity|]).
  vm_compute. discriminate.
Qed.

(** C9. Whatever the entries and the flags, a query that is empty after
    trimming white space makes the search return the input sequence as it
    is, in the same order. *)
Theorem results_empty_query `{U : Unicode} (sorted : list Entry) (query : list N)
    (fuzzy : bool) (fuzzyTol : Z) :
  trim query = [] → results sorted query fuzzy fuzzyTol = sorted.
Proof. intros Hq. unfold results. by rewrite decide_True. Qed.

Lemma results_empty_query_witness :
  trim (lit "  ") = [] ∧
  @results UCD.ucd glossary (lit "  ") false 2 = glossary.
Proof.
  split; [reflexivity|].
  apply (@results_empty_query UCD.ucd glossary (lit "  ") false 2). reflexivity.
Defined.

(** C10, as the program has it. The distance of the program between two
    strings is 0 exactly when their normalized forms are equal; so the
    entries of the exact tier are the entries [e] with
    [levenshtein(query.trim(), e.begriff)] 0. The fuzzy tier computes
    [levenshtein(nq, e.begriff)] from the normalized query, which is 0
    exactly for the entries whose normalized term is the normalized query
    normalized once more. When normalizing the normalized query changes
    nothing these are the entries of the exact tier: the search returns
    them if there are any, and returns no entry at distance 0 if there are
    none. *)
Theorem levenshtein_zero_iff_exact `{U : Unicode} :
  (∀ a b : list N, levenshtein a b = 0 ↔ normalize (Str a) = normalize (Str b))
  ∧ (∀ (sorted : list Entry) (query : list N),
       filter (λ e, normalize (Str (begriff e)) = normalize (Str (trim query))) sorted
       = filter (λ e, levenshtein (trim query) (begriff e) = 0) sorted)
  ∧ (∀ (sorted : list Entry) (query : list N),
       normalize (Str (normalize (Str (trim query)))) = normalize (Str (trim query)) →
       filter (λ e, normalize (Str (begriff e)) = normalize (Str (trim query))) sorted
       = filter (λ e, levenshtein (normalize (Str (trim query))) (begriff e) = 0) sorted)
  ∧ (∀ (sorted : list Entry) (query : list N),
       filter (λ e, levenshtein (normalize (Str (trim query))) (begriff e) = 0) sorted
       = filter (λ e, normalize (Str (begriff e))
                      = normalize (Str (normalize (Str (trim query))))) sorted)
  ∧ (∀ (sorted : list Entry) (query : list N) (fuzzy : bool) (fuzzyTol : Z),
       trim query ≠ [] →
       normalize (Str (normalize (Str (trim query)))) = normalize (Str (trim query)) →
       let exact :=
         filter (λ e, normalize (Str (begriff e)) = normalize (Str (trim query))) sorted in
       let zero :=
         filter (λ e, levenshtein (normalize (Str (trim query))) (begriff e) = 0) sorted in
       (exact ≠ [] → results sorted query fuzzy fuzzyTol = zero)
       ∧ (exact = [] →
          ∀ e, e ∈ results sorted query fuzzy fuzzyTol →
               levenshtein (normalize (Str (trim query))) (begriff e) ≠ 0)).
Proof.
  assert (∀ (sorted : list Entry) (query : list N),
            normalize (Str (normalize (Str (trim query)))) = normalize (Str (trim query)) →
            filter (λ e, normalize (Str (begriff e)) = normalize (Str (trim query))) sorted
            = filter (λ e, levenshtein (normalize (Str (trim query))) (begriff e) = 0)
                sorted) as Hzero.
  { intros sorted query Hidem. apply list_filter_iff. intros e.
    rewrite levenshtein_zero, Hidem. naive_solver. }
  split; [apply levenshtein_zero|]. split; [|split; [exact Hzero|split]].
  - intros sorted query. apply list_filter_iff. intros e.
    rewrite levenshtein_zero. naive_solver.
  - intros sorted query. apply list_filter_iff. intros e.
    rewrite levenshtein_zero. naive_solver.
  - intros sorted query fuzzy fuzzyTol Hq Hidem exact zero.
    assert (exact = zero) as Heq by by apply Hzero.
    split.
    + intros Hexact. rewrite results_tiers by done.
      fold exact. by rewrite decide_True.
    + intros Hexact e He Hd.
      assert (e ∈ zero) as Hin.
      { apply list_elem_of_filter. split; [done|].
        eapply elem_of_submseteq; [exact He|apply results_submseteq]. }
      rewrite <- Heq, Hexact in Hin. by apply elem_of_nil in Hin.
Qed.

Lemma levenshtein_zero_iff_exact_witness :
  trim (lit "Algorithmus") ≠ [] ∧
  @normalize UCD.ucd (Str (@normalize UCD.ucd (Str (trim (lit "Algorithmus")))))
    = @normalize UCD.ucd (Str (trim (lit "Algorithmus"))) ∧
  filter (λ e, @normalize UCD.ucd (Str (begriff e))
               = @normalize UCD.ucd (Str (trim (lit "Algorithmus")))) glossary ≠ [] ∧
  @results UCD.ucd glossary (lit "Algorithmus") true 2
  = filter (λ e, @levenshtein UCD.ucd (@normalize UCD.ucd (Str (trim (lit "Algorithmus"))))
                   (begriff e) = 0) glossary.
Proof.
  assert (trim (lit "Algorithmus") ≠ []) as Hq by (vm_compute; discriminate).
  assert (@normalize UCD.ucd (Str (@normalize UCD.ucd (Str (trim (lit "Algorithmus")))))
          = @normalize UCD.ucd (Str (trim (lit "Algorithmus")))) as Hidem
    by (vm_compute; reflexivity).
  assert (filter (λ e, @normalize UCD.ucd (Str (begriff e))
                       = @normalize UCD.ucd (Str (trim (lit "Algorithmus")))) glossary
          ≠ []) as Hexact by (vm_compute; discriminate).
  split; [exact Hq|]. split; [exact Hidem|]. split; [exact Hexact|].
  exact (proj1 (proj2 (proj2 (proj2 (proj2 (@levenshtein_zero_iff_exact UCD.ucd))))
                  glossary (lit "Algorithmus") true 2%Z Hq Hidem) Hexact).
Defined.

(** C10 as stated fails: for the query U+035B U+005E U+0359 and the term
    U+035B U+0359 the exact tier is empty, yet the distance the fuzzy tier
    computes for the entry is 0, and with tolerance 0 the search returns
    it. *)
Lemma levenshtein_zero_iff_exact_counterexample :
  trim zigzag_query ≠ []
  ∧ filter (λ e, @normalize UCD.ucd (Str (begriff e))
                 = @normalize UCD.ucd (Str (trim zigzag_query)))
      [entry_of [0x35B; 0x359]%N] = []
  ∧ @levenshtein UCD.ucd (@normalize UCD.ucd (Str (trim zigzag_query)))
      (begriff (entry_of [0x35B; 0x359]%N)) = 0
  ∧ filter (λ e, @levenshtein UCD.ucd (@normalize UCD.ucd (Str (trim zigzag_query)))
                   (begriff e) = 0)
      [entry_of [0x35B; 0x359]%N] = [entry_of [0x35B; 0x359]%N]
  ∧ @results UCD.ucd [entry_of [0x35B; 0x359]%N] zigzag_query true 0
    = [entry_of [0x35B; 0x359]%N]
  ∧ filter (λ e, @normalize UCD.ucd (Str (begriff e))
                 = @normalize UCD.ucd (Str (trim zigzag_query)))
      [entry_of [0x35B; 0x359]%N]
    ≠ filter (λ e, @levenshtein UCD.ucd (@normalize UCD.ucd (Str (trim zigzag_query)))
                     (begriff e) = 0)
        [entry_of [0x35B; 0x359]%N].
Proof.
  split; [vm_compute; discriminate|].
  do 4 (split; [vm_compute; reflexivity|]).
  vm_compute. discriminate.
Qed.

(** * Further properties of the component *)

(** ** White space *)

Section Trim.
Implicit Types s t w : list N.

Lemma trimStart_nil_iff s : trimStart s = [] ↔ Forall (λ c, isWhiteSpace c) s.
Proof.
  induction s as [|c s IH]; simpl; [by split|].
  destruct (isWhiteSpace c) eqn:Hc.
  - rewrite IH. split; [constructor; [by rewrite Hc|done]|by inversion 1].
  - split; [done|]. inversion 1; simplify_eq. by rewrite Hc in *.
Qed.

Lemma trimStart_cons_inv s c r : trimStart s = c :: r → isWhiteSpace c = false.
Proof.
  induction s as [|x s IH]; simpl; [done|].
  destruct (isWhiteSpace x) eqn:Hx; [done|]. by intros [= <- _].
Qed.

Lemma trimStart_snoc s c :
  isWhiteSpace c = false → trimStart (s ++ [c]) = trimStart s ++ [c].
Proof.
  intros Hc. induction s as [|x s IH]; simpl; [by rewrite Hc|].
  by destruct (isWhiteSpace x).
Qed.

Lemma trimStart_app_ws w s :
  Forall (λ c, isWhiteSpace c) w → trimStart (w ++ s) = trimStart s.
Proof.
  induction 1 as [|c w Hc _ IH]; simpl; [done|].
  by destruct (isWhiteSpace c).
Qed.

Lemma trimStart_idempotent s : trimStart (trimStart s) = trimStart s.
Proof.
  induction s as [|c s IH]; simpl; [done|].
  destruct (isWhiteSpace c) eqn:Hc; [done|]. simpl. by rewrite Hc.
Qed.

(** [trim] when something is left of the string. *)
Lemma trim_cons s c r :
  trimStart s = c :: r → trim s = c :: reverse (trimStart (reverse r)).
Proof.
  intros Hs. pose proof (trimStart_cons_inv _ _ _ Hs) as Hc.
  unfold trim, trimEnd. rewrite Hs, reverse_cons, trimStart_snoc by done.
  by rewrite reverse_snoc.
Qed.

Lemma trim_nil_iff s : trim s = [] ↔ Forall (λ c, isWhiteSpace c) s.
Proof.
  rewrite <- trimStart_nil_iff. destruct (trimStart s) as [|c r] eqn:Hs.
  - unfold trim, trimEnd. by rewrite Hs.
  - by rewrite (trim_cons _ _ _ Hs).
Qed.

Lemma trim_idempotent s : trim (trim s) = trim s.
Proof.
  destruct (trimStart s) as [|c r] eqn:Hs.
  { assert (trim s = []) as -> by (unfold trim, trimEnd; by rewrite Hs). done. }
  pose proof (trimStart_cons_inv _ _ _ Hs) as Hc.
  rewrite (trim_cons _ _ _ Hs).
  rewrite (trim_cons _ c (reverse (trimStart (reverse r)))) by (simpl; by rewrite Hc).
  by rewrite reverse_involutive, trimStart_idempotent.
Qed.

(** A trimmed string keeps its first and last code unit under [trim]. *)
Lemma trim_ws_l w s : Forall (λ c, isWhiteSpace c) w → trim (w ++ s) = trim s.
Proof. intros Hw. unfold trim. by rewrite trimStart_app_ws. Qed.

End Trim.

(** ** The edit distance as a metric *)

Section Metric.
Implicit Types s t u : list N.

Lemma edits_sym s t k : edits s t k → edits t s k.
Proof. induction 1; by constructor. Qed.

Lemma distance_sym s t : distance s t = distance t s.
Proof.
  apply Nat.le_antisymm; apply distance_le, edits_sym, edits_distance.
Qed.

Lemma distance_keep_le x s t : distance (x :: s) (x :: t) ≤ distance s t.
Proof. rewrite distance_cons, decide_True by done. lia. Qed.

Lemma distance_subst_le x y s t : distance (x :: s) (y :: t) ≤ distance s t + 1.
Proof. rewrite distance_cons. destruct (decide (x = y)); lia. Qed.

(** Two scripts in a row are worth at least the distance of the ends. *)
Lemma edits_compose n s t u k l :
  length s + length t + length u ≤ n →
  edits s t k → edits t u l → distance s u ≤ k + l.
Proof.
  revert s t u k l. induction n as [|n IH]; intros s t u k l Hn H1 H2.
  { destruct s, t, u; simpl in Hn; try lia.
    inversion H1; inversion H2; subst. simpl. lia. }
  inversion H1 as [|x s' t' k' H1'|x y s' t' k' H1'|x s' t' k' H1'|y s' t' k' H1'];
    subst.
  - apply distance_le in H2. lia.
  - inversion H2 as [|? ? u' ? H2'|? z ? u' l' H2'|? ? ? l' H2'|z ? u' l' H2']; subst.
    + pose proof (IH s' t' u' k l ltac:(simpl in Hn; lia) H1' H2').
      pose proof (distance_keep_le x s' u'). lia.
    + pose proof (IH s' t' u' k l' ltac:(simpl in Hn; lia) H1' H2').
      pose proof (distance_subst_le x z s' u'). lia.
    + pose proof (IH s' t' u k l' ltac:(simpl in Hn; lia) H1' H2').
      pose proof (distance_delete_le x s' u). lia.
    + pose proof (IH (x :: s') (x :: t') u' k l' ltac:(simpl in *; lia) H1 H2').
      pose proof (distance_insert_le z (x :: s') u'). lia.
  - inversion H2 as [|? ? u' ? H2'|? z ? u' l' H2'|? ? ? l' H2'|z ? u' l' H2']; subst.
    + pose proof (IH s' t' u' k' l ltac:(simpl in Hn; lia) H1' H2').
      pose proof (distance_subst_le x y s' u'). lia.
    + pose proof (IH s' t' u' k' l' ltac:(simpl in Hn; lia) H1' H2').
      pose proof (distance_subst_le x z s' u'). lia.
    + pose proof (IH s' t' u k' l' ltac:(simpl in Hn; lia) H1' H2').
      pose proof (distance_delete_le x s' u). lia.
    + pose proof (IH (x :: s') (y :: t') u' (S k') l' ltac:(simpl in *; lia) H1 H2').
      pose proof (distance_insert_le z (x :: s') u'). lia.
  - pose proof (IH s' t u k' l ltac:(simpl in Hn; lia) H1' H2).
    pose proof (distance_delete_le x s' u). lia.
  - inversion H2 as [|? ? u' ? H2'|? z ? u' l' H2'|? ? ? l' H2'|z ? u' l' H2']; subst.
    + pose proof (IH s t' u' k' l ltac:(simpl in Hn; lia) H1' H2').
      pose proof (distance_insert_le y s u'). lia.
    + pose proof (IH s t' u' k' l' ltac:(simpl in Hn; lia) H1' H2').
      pose proof (distance_insert_le z s u'). lia.
    + pose proof (IH s t' u k' l' ltac:(simpl in Hn; lia) H1' H2'). lia.
    + pose proof (IH s (y :: t') u' (S k') l' ltac:(simpl in *; lia) H1 H2').
      pose proof (distance_insert_le z s u'). lia.
Qed.

Lemma distance_triangle s t u : distance s u ≤ distance s t + distance t u.
Proof. eapply edits_compose; [done|apply edits_distance..]. Qed.

Lemma edits_length s t k :
  edits s t k → length s ≤ length t + k ∧ length t ≤ length s + k.
Proof. induction 1; simpl; lia. Qed.

Lemma distance_upper s t : distance s t ≤ length s `max` length t.
Proof.
  revert t. induction s as [|x s IH]; intros t.
  { rewrite distance_nil_l. simpl. lia. }
  destruct t as [|y t]; [rewrite distance_nil_r; lia|].
  pose proof (distance_subst_le x y s t). specialize (IH t). cbn [length]. lia.
Qed.

End Metric.

(** ** What the search returns *)


Section SearchSound.
Context `{U : Unicode}.
Implicit Types (sorted : list Entry) (query : list N).

Lemma filter_nil_iff {A} (P : A → Prop) `{∀ x, Decision (P x)} (l : list A) :
  filter P l = [] ↔ ∀ x, x ∈ l → ¬ P x.
Proof.
  rewrite <- filter_length_0. split; [by intros ->|]. apply nil_length_inv.
Qed.

Lemma sort_nil_iff {A} (cmp : A → A → Z) (l : list A) : sort cmp l = [] ↔ l = [].
Proof.
  split; [|by intros ->]. intros Hl.
  apply Permutation_nil_r. rewrite <- Hl. by rewrite sort_perm.
Qed.

(** An edit distance is at least the difference of the lengths. *)
Lemma fuzzy_distance_length query e :
  (Z.abs (Z.of_nat (length (normalize (Str (normalize (Str (trim query))))))
          - Z.of_nat (length (normalize (Str (begriff e)))))
   ≤ Z.of_nat (fuzzy_distance query e))%Z.
Proof.
  unfold fuzzy_distance.
  pose proof (edits_length _ _ _
    (edits_distance (normalize (Str (normalize (Str (trim query)))))
                    (normalize (Str (begriff e))))).
  lia.
Qed.

End SearchSound.


(** X1. Whatever the query and the flags, the search returns entries of
    its input, each at most as often as it occurs there, so never more
    entries than it was given and none twice when the input has none
    twice. *)
Theorem results_within_input `{U : Unicode} (sorted : list Entry) (query : list N)
    (fuzzy : bool) (fuzzyTol : Z) :
  results sorted query fuzzy fuzzyTol ⊆+ sorted
  ∧ length (results sorted query fuzzy fuzzyTol) ≤ length sorted
  ∧ (NoDup sorted → NoDup (results sorted query fuzzy fuzzyTol)).
Proof.
  pose proof (results_submseteq sorted query fuzzy fuzzyTol) as Hsub.
  split; [done|]. split; [by apply submseteq_length|].
  destruct (submseteq_Permutation _ _ Hsub) as [k Hk].
  intros Hnodup.
  assert (NoDup (results sorted query fuzzy fuzzyTol ++ k)) as Hall
    by (by rewrite <- Hk).
  by apply NoDup_app in Hall as [? _].
Qed.

(** X2. When no normalized term equals the normalized query and some
    contain it, the search returns exactly the entries whose normalized term
    contains the normalized query, in input order, with fuzzy matching on
    or off. *)
Theorem results_partial_tier `{U : Unicode} (sorted : list Entry) (query : list N)
    (fuzzy : bool) (fuzzyTol : Z) :
  trim query ≠ [] →
  filter (λ e, normalize (Str (begriff e)) = normalize (Str (trim query))) sorted = [] →
  (∃ e, e ∈ sorted ∧ infix_of (normalize (Str (trim query)))
                               (normalize (Str (begriff e)))) →
  results sorted query fuzzy fuzzyTol =
  filter (λ e, infix_of (normalize (Str (trim query))) (normalize (Str (begriff e))))
    sorted.
Proof.
  intros Hq Hexact (e & He & Hin). rewrite results_tiers by done.
  rewrite decide_False by (rewrite Hexact; tauto).
  assert (filter (λ e, includes (normalize (Str (begriff e)))
                                (normalize (Str (trim query)))) sorted
          = filter (λ e, infix_of (normalize (Str (trim query)))
                                  (normalize (Str (begriff e)))) sorted) as Heq.
  { apply list_filter_iff. intros x. apply includes_infix. }
  rewrite decide_True; [done|]. rewrite Heq.
  intros Hnil. by eapply (proj1 (filter_nil_iff _ sorted) Hnil e).
Qed.

Lemma results_partial_tier_witness :
  trim (lit "gorithm") ≠ [] ∧
  filter (λ e, @normalize UCD.ucd (Str (begriff e))
               = @normalize UCD.ucd (Str (trim (lit "gorithm")))) glossary = [] ∧
  (∃ e, e ∈ glossary ∧ infix_of (@normalize UCD.ucd (Str (trim (lit "gorithm"))))
                                 (@normalize UCD.ucd (Str (begriff e)))) ∧
  @results UCD.ucd glossary (lit "gorithm") false 0
  = [entry "Algorithmus"; entry "Algorithmic"].
Proof.
  assert (trim (lit "gorithm") ≠ []) as Hq by (vm_compute; discriminate).
  assert (filter (λ e, @normalize UCD.ucd (Str (begriff e))
                       = @normalize UCD.ucd (Str (trim (lit "gorithm")))) glossary
          = []) as Hexact by (vm_compute; reflexivity).
  assert (∃ e, e ∈ glossary ∧ infix_of (@normalize UCD.ucd (Str (trim (lit "gorithm"))))
                                 (@normalize UCD.ucd (Str (begriff e)))) as Hin.
  { exists (entry "Algorithmus"). split; [left|].
    eapply bool_decide_unpack. vm_compute. exact I. }
  split; [exact Hq|]. split; [exact Hexact|]. split; [exact Hin|].
  rewrite (@results_partial_tier UCD.ucd glossary (lit "gorithm") false 0 Hq Hexact Hin).
  vm_compute. reflexivity.
Defined.

(** X3. For a query that is not blank, every entry the search returns
    either contains the normalized query in its normalized term, or fuzzy
    matching is on and the entry is within the tolerance; in that case the
    length of its normalized term differs by at most the tolerance from the
    length of the string the distance is taken from. *)
Theorem results_sound `{U : Unicode} (sorted : list Entry) (query : list N)
    (fuzzy : bool) (fuzzyTol : Z) (e : Entry) :
  trim query ≠ [] →
  e ∈ results sorted query fuzzy fuzzyTol →
  infix_of (normalize (Str (trim query))) (normalize (Str (begriff e)))
  ∨ (fuzzy = true
     ∧ (Z.of_nat (fuzzy_distance query e) ≤ fuzzyTol)%Z
     ∧ (Z.abs (Z.of_nat (length (normalize (Str (normalize (Str (trim query))))))
               - Z.of_nat (length (normalize (Str (begriff e))))) ≤ fuzzyTol)%Z).
Proof.
  intros Hq. rewrite results_tiers by done.
  repeat case_decide.
  - intros [Heq _]%list_elem_of_filter. left.
    rewrite <- Heq. apply includes_infix, includes_refl.
  - intros [Hin _]%list_elem_of_filter. left. by apply includes_infix.
  - destruct fuzzy; [|by intros ?%elem_of_nil].
    rewrite sort_perm. intros [Hd _]%list_elem_of_filter. right.
    split; [done|]. split; [done|].
    pose proof (fuzzy_distance_length query e). lia.
Qed.

Lemma results_sound_witness :
  trim (lit "Algoritmus") ≠ [] ∧
  entry "Algorithmus" ∈ @results UCD.ucd glossary (lit "Algoritmus") true 2 ∧
  (infix_of (@normalize UCD.ucd (Str (trim (lit "Algoritmus"))))
            (@normalize UCD.ucd (Str (begriff (entry "Algorithmus"))))
   ∨ (true = true
      ∧ (Z.of_nat (@fuzzy_distance UCD.ucd (lit "Algoritmus") (entry "Algorithmus")) ≤ 2)%Z
      ∧ (Z.abs (Z.of_nat (length (@normalize UCD.ucd
                   (Str (@normalize UCD.ucd (Str (trim (lit "Algoritmus")))))))
                - Z.of_nat (length (@normalize UCD.ucd
                   (Str (begriff (entry "Algorithmus")))))) ≤ 2)%Z)).
Proof.
  assert (trim (lit "Algoritmus") ≠ []) as Hq by (vm_compute; discriminate).
  assert (entry "Algorithmus" ∈ @results UCD.ucd glossary (lit "Algoritmus") true 2)
    as Hin.
  { assert (@results UCD.ucd glossary (lit "Algoritmus") true 2
            = [entry "Algorithmus"]) as -> by (vm_compute; reflexivity).
    left. }
  split; [exact Hq|]. split; [exact Hin|].
  exact (@results_sound UCD.ucd glossary (lit "Algoritmus") true 2
           (entry "Algorithmus") Hq Hin).
Defined.

(** X4. For a query that is not blank the search comes back empty exactly
    when no normalized term contains the normalized query and, if fuzzy
    matching is on, no entry is within the tolerance. *)
Theorem results_empty_iff `{U : Unicode} (sorted : list Entry) (query : list N)
    (fuzzy : bool) (fuzzyTol : Z) :
  trim query ≠ [] →
  results sorted query fuzzy fuzzyTol = [] ↔
  ∀ e, e ∈ sorted →
    ¬ infix_of (normalize (Str (trim query))) (normalize (Str (begriff e)))
    ∧ (fuzzy = true → ¬ (Z.of_nat (fuzzy_distance query e) ≤ fuzzyTol)%Z).
Proof.
  intros Hq. rewrite results_tiers by done.
  destruct (decide (filter _ sorted ≠ [])) as [Hexact|Hexact].
  { split; [done|]. intros Hall. exfalso. apply Hexact.
    apply filter_nil_iff. intros e He Heq. destruct (Hall e He) as [Hno _].
    apply Hno. rewrite <- Heq. apply includes_infix, includes_refl. }
  destruct (decide (filter _ sorted ≠ [])) as [Hpartial|Hpartial].
  { split; [done|]. intros Hall. exfalso. apply Hpartial.
    apply filter_nil_iff. intros e He Hin. destruct (Hall e He) as [Hno _].
    apply Hno. by apply includes_infix. }
  apply dec_stable in Hpartial.
  assert (∀ e, e ∈ sorted → ¬ infix_of (normalize (Str (trim query)))
                                        (normalize (Str (begriff e)))) as Hnone.
  { intros e He Hin%includes_infix.
    by eapply (proj1 (filter_nil_iff _ sorted) Hpartial e). }
  destruct fuzzy.
  - rewrite sort_nil_iff, filter_nil_iff. split.
    + intros Hall e He. split; [by apply Hnone|]. intros _. by apply Hall.
    + intros Hall e He. by apply Hall.
  - split; [|done]. intros _ e He. split; [by apply Hnone|done].
Qed.

Lemma results_empty_iff_witness :
  trim (lit "Algoritmus") ≠ [] ∧
  (@results UCD.ucd glossary (lit "Algoritmus") false 2 = [] ↔
   ∀ e, e ∈ glossary →
     ¬ infix_of (@normalize UCD.ucd (Str (trim (lit "Algoritmus"))))
                (@normalize UCD.ucd (Str (begriff e)))
     ∧ (false = true →
        ¬ (Z.of_nat (@fuzzy_distance UCD.ucd (lit "Algoritmus") e) ≤ 2)%Z)).
Proof.
  assert (trim (lit "Algoritmus") ≠ []) as Hq by (vm_compute; discriminate).
  split; [exact Hq|].
  exact (@results_empty_iff UCD.ucd glossary (lit "Algoritmus") false 2 Hq).
Defined.

(** X5. [levenshtein] is symmetric and satisfies the triangle inequality:
    with the zero case it is a metric on the normalized forms. *)
Theorem levenshtein_metric `{U : Unicode} (a b c : list N) :
  levenshtein a b = levenshtein b a
  ∧ levenshtein a c ≤ levenshtein a b + levenshtein b c.
Proof.
  rewrite !levenshtein_distance. split; [apply distance_sym|apply distance_triangle].
Qed.

(** X6. [levenshtein] lies between the difference and the greater of the
    lengths of the two normalized strings. *)
Theorem levenshtein_bounds `{U : Unicode} (a b : list N) :
  length (normalize (Str a)) ≤ length (normalize (Str b)) + levenshtein a b
  ∧ length (normalize (Str b)) ≤ length (normalize (Str a)) + levenshtein a b
  ∧ levenshtein a b ≤ length (normalize (Str a)) `max` length (normalize (Str b)).
Proof.
  rewrite levenshtein_distance.
  pose proof (edits_length _ _ _
    (edits_distance (normalize (Str a)) (normalize (Str b)))) as [??].
  pose proof (distance_upper (normalize (Str a)) (normalize (Str b))).
  done.
Qed.

(** ** Suggestions and the substring tier *)

Section Suggest.
Context `{U : Unicode}.

Lemma startsWith_includes (s t : list N) : startsWith s t → includes s t.
Proof.
  intros Hs. destruct s; simpl; apply orb_True; by left.
Qed.

(** The two runs of [suggestions] together are the substring matches. *)
Lemma suggestion_runs (sorted : list Entry) (nq : list N) :
  filter (λ e, startsWith (normalize (Str (begriff e))) nq) sorted ++
  filter (λ e, ¬ startsWith (normalize (Str (begriff e))) nq
               ∧ includes (normalize (Str (begriff e))) nq) sorted
  ≡ₚ filter (λ e, includes (normalize (Str (begriff e))) nq) sorted.
Proof.
  induction sorted as [|e sorted IH]; [done|].
  rewrite !filter_cons.
  destruct (decide (startsWith (normalize (Str (begriff e))) nq)) as [Hs|Hs].
  - rewrite decide_False by tauto.
    rewrite decide_True by by apply startsWith_includes.
    simpl. by rewrite IH.
  - destruct (decide (includes (normalize (Str (begriff e))) nq)) as [Hi|Hi].
    + rewrite decide_True by done. rewrite <- Permutation_middle. by rewrite IH.
    + rewrite decide_False by tauto. done.
Qed.

End Suggest.

(** X7. Every suggestion is an entry whose normalized term contains the
    normalized query, taken at most as often as the input holds it; when at
    most 8 entries contain the query the suggestions are all of them. *)
Theorem suggestions_substring `{U : Unicode} (sorted : list Entry) (query : list N) :
  normalize (Str query) ≠ [] →
  suggestions sorted query
    ⊆+ filter (λ e, infix_of (normalize (Str query)) (normalize (Str (begriff e)))) sorted
  ∧ (length (filter (λ e, infix_of (normalize (Str query))
                                    (normalize (Str (begriff e)))) sorted) ≤ 8 →
     suggestions sorted query
       ≡ₚ filter (λ e, infix_of (normalize (Str query))
                                (normalize (Str (begriff e)))) sorted).
Proof.
  intros Hnq.
  assert (filter (λ e, infix_of (normalize (Str query)) (normalize (Str (begriff e))))
            sorted
          = filter (λ e, includes (normalize (Str (begriff e))) (normalize (Str query)))
              sorted) as ->.
  { apply list_filter_iff. intros e. symmetry. apply includes_infix. }
  unfold suggestions. rewrite decide_False by done.
  pose proof (suggestion_runs sorted (normalize (Str query))) as Hruns.
  split.
  - rewrite <- Hruns. apply sublist_submseteq, sublist_take.
  - intros Hlen. rewrite take_ge; [done|].
    by rewrite Hruns.
Qed.

Lemma suggestions_substring_witness :
  @normalize UCD.ucd (Str (lit "ber")) ≠ [] ∧
  @suggestions UCD.ucd berichte (lit "ber")
    ⊆+ filter (λ e, infix_of (@normalize UCD.ucd (Str (lit "ber")))
                             (@normalize UCD.ucd (Str (begriff e)))) berichte.
Proof.
  assert (@normalize UCD.ucd (Str (lit "ber")) ≠ []) as Hnq
    by (vm_compute; discriminate).
  split; [exact Hnq|].
  exact (proj1 (@suggestions_substring UCD.ucd berichte (lit "ber") Hnq)).
Defined.

(** ** CSV lines *)

Section CsvLine.
Implicit Types (s rest cur line : list N) (cells : list (list N)).

Lemma join_cons_cons sep (x y : list N) (r : list (list N)) :
  join sep (x :: y :: r) = x ++ sep ++ join sep (y :: r).
Proof. done. Qed.

Lemma join_snoc sep (xs : list (list N)) (x : list N) :
  xs ≠ [] → join sep (xs ++ [x]) = join sep xs ++ sep ++ x.
Proof.
  induction xs as [|y xs IH]; [done|]. intros _.
  destruct xs as [|z xs]; [done|].
  change ((y :: z :: xs) ++ [x]) with (y :: ((z :: xs) ++ [x])).
  change ((z :: xs) ++ [x]) with (z :: (xs ++ [x])) at 1.
  rewrite !join_cons_cons.
  change (z :: (xs ++ [x])) with ((z :: xs) ++ [x]).
  rewrite IH by done. by rewrite <- !app_assoc.
Qed.

Lemma join_snoc_app sep (xs : list (list N)) (x y : list N) :
  join sep (xs ++ [x ++ y]) = join sep (xs ++ [x]) ++ y.
Proof.
  destruct xs as [|z xs]; [done|].
  rewrite !join_snoc by done. by rewrite <- !app_assoc.
Qed.

(** Outside quotes, code units other than a comma and a quotation mark
    are added to the current cell. *)
Lemma parseLine_loop_plain s rest cells cur :
  Forall (λ c, c ≠ comma ∧ c ≠ quote) s →
  parseLine_loop (s ++ rest) cells cur false = parseLine_loop rest cells (cur ++ s) false.
Proof.
  intros Hs. revert cur. induction Hs as [|c s [Hcomma Hquote] _ IH]; intros cur.
  { by rewrite app_nil_r. }
  simpl. rewrite !decide_False by done. rewrite IH. by rewrite <- app_assoc.
Qed.

(** Inside quotes, the doubled text up to the closing quotation mark is
    the text. *)
Lemma parseLine_loop_quoted s rest cells cur :
  head rest ≠ Some quote →
  parseLine_loop (doubleQuotes s ++ quote :: rest) cells cur true
  = parseLine_loop rest cells (cur ++ s) false.
Proof.
  intros Hrest. revert cur. induction s as [|c s IH]; intros cur.
  { change (doubleQuotes [] ++ quote :: rest) with (quote :: rest).
    cbn [parseLine_loop]. rewrite decide_True by done. rewrite app_nil_r.
    destruct rest as [|c rest]; [done|].
    rewrite decide_False; [done|]. intros ->. by apply Hrest. }
  destruct (decide (c = quote)) as [->|Hc].
  - change (doubleQuotes (quote :: s) ++ quote :: rest)
      with (quote :: quote :: (doubleQuotes s ++ quote :: rest)).
    cbn [parseLine_loop]. rewrite !decide_True by done.
    rewrite IH. by rewrite <- app_assoc.
  - assert (doubleQuotes (c :: s) = c :: doubleQuotes s) as ->.
    { unfold doubleQuotes. rewrite bind_cons. by rewrite decide_False by done. }
    cbn [parseLine_loop app]. rewrite decide_False by done.
    rewrite IH. by rewrite <- app_assoc.
Qed.

Lemma parseLine_loop_cell s rest cells :
  head rest ≠ Some quote →
  parseLine_loop (csvEscape (Str s) ++ rest) cells [] false
  = parseLine_loop rest cells s false.
Proof.
  intros Hrest. unfold csvEscape. simpl. case_decide as Hq.
  - assert ((quote :: doubleQuotes s ++ [quote]) ++ rest
            = quote :: (doubleQuotes s ++ quote :: rest)) as ->
      by (simpl; by rewrite <- app_assoc).
    cbn [parseLine_loop]. rewrite decide_True by done.
    by rewrite parseLine_loop_quoted.
  - rewrite parseLine_loop_plain; [done|].
    apply Forall_forall. intros c Hc.
    split; intros Heq; apply Hq, Exists_exists; exists c; (split; [done|]);
      [by left|right; by left].
Qed.

Lemma parseLine_loop_row (c : list N) (cs cells : list (list N)) :
  parseLine_loop (join [comma] ((λ s, csvEscape (Str s)) <$> (c :: cs))) cells [] false
  = cells ++ c :: cs.
Proof.
  revert c cells. induction cs as [|c' cs IH]; intros c cells.
  { simpl. rewrite <- (app_nil_r (csvEscape (Str c))).
    by rewrite parseLine_loop_cell. }
  rewrite !fmap_cons, join_cons_cons.
  rewrite parseLine_loop_cell by (simpl; by intros [=]).
  change ([comma] ++ ?l) with (comma :: l). cbn [parseLine_loop].
  rewrite decide_False by done. rewrite decide_True by done.
  etrans; [exact (IH c' (cells ++ [c]))|]. by rewrite <- app_assoc.
Qed.

(** Without quotation marks the cells are the runs between the commas. *)
Lemma parseLine_loop_unquoted line cells cur :
  quote ∉ line →
  join [comma] (parseLine_loop line cells cur false)
  = join [comma] (cells ++ [cur]) ++ line.
Proof.
  revert cells cur. induction line as [|c line IH]; intros cells cur Hq.
  { by rewrite app_nil_r. }
  apply not_elem_of_cons in Hq as [Hc Hq]. simpl.
  rewrite decide_False by done. case_decide as Hcomma.
  - rewrite IH by done. rewrite join_snoc by by destruct cells.
    rewrite <- !app_assoc. by subst.
  - rewrite IH by done. rewrite join_snoc_app. by rewrite <- app_assoc.
Qed.

End CsvLine.

(** X8. Reading a line written by [csvEscape] gives the cells back:
    [parseLine] of the escaped cells joined by commas is the list of cells,
    whatever commas, quotation marks and line feeds they contain. The empty
    line reads as one empty cell. *)
Theorem parseLine_csvEscape (c : list N) (cs : list (list N)) :
  parseLine (join [comma] ((λ s, csvEscape (Str s)) <$> (c :: cs))) = c :: cs
  ∧ parseLine (join [comma] []) = [[]].
Proof. split; [apply (parseLine_loop_row c cs [])|done]. Qed.

(** X9. On a line without quotation marks [parseLine] cuts at the commas
    and nowhere else: joining the cells with commas gives the line back,
    and there is one more cell than there are commas. *)
Theorem parseLine_unquoted (line : list N) :
  quote ∉ line →
  join [comma] (parseLine line) = line
  ∧ length (parseLine line) = S (length (filter (λ c, c = comma) line)).
Proof.
  intros Hq. unfold parseLine.
  split; [by rewrite (parseLine_loop_unquoted line [] [])|].
  assert (∀ cells cur,
    length (parseLine_loop line cells cur false)
    = length cells + S (length (filter (λ c, c = comma) line))) as Hlen.
  { induction line as [|c line IH]; intros cells cur.
    { simpl. rewrite length_app. simpl. lia. }
    apply not_elem_of_cons in Hq as [Hc Hq]. simpl.
    rewrite decide_False by done. rewrite filter_cons. case_decide.
    - rewrite IH by done. rewrite length_app. simpl. lia.
    - by rewrite IH. }
  by rewrite Hlen.
Qed.

Lemma parseLine_unquoted_witness :
  (quote ∉ lit "a,b,,c") ∧
  join [comma] (parseLine (lit "a,b,,c")) = lit "a,b,,c" ∧
  length (parseLine (lit "a,b,,c")) = 4.
Proof.
  assert (quote ∉ lit "a,b,,c") as Hq
    by (eapply bool_decide_unpack; vm_compute; exact I).
  split; [exact Hq|].
  destruct (parseLine_unquoted (lit "a,b,,c") Hq) as [Hjoin Hlen].
  split; [exact Hjoin|]. rewrite Hlen. vm_compute. reflexivity.
Defined.

(** ** CSV files *)

Section CsvFile.
Implicit Types (l cur rest : list N) (ls : list (list N)).

Lemma splitLines_loop_plain l rest cur :
  one_line l → splitLines_loop (l ++ rest) cur = splitLines_loop rest (cur ++ l).
Proof.
  intros Hl. revert cur. induction Hl as [|c l [HLF HCR] _ IH]; intros cur.
  { by rewrite app_nil_r. }
  cbn [app splitLines_loop]. rewrite !decide_False by done.
  rewrite IH. by rewrite <- app_assoc.
Qed.

Lemma splitLines_loop_join l ls cur :
  Forall one_line (l :: ls) →
  splitLines_loop (join [LF] (l :: ls)) cur = (cur ++ l) :: ls.
Proof.
  revert l cur. induction ls as [|l' ls IH]; intros l cur Hall.
  { apply Forall_cons in Hall as [Hl _]. simpl.
    rewrite <- (app_nil_r l) at 1. by rewrite splitLines_loop_plain. }
  apply Forall_cons in Hall as [Hl Hall].
  rewrite join_cons_cons, splitLines_loop_plain by done.
  change ([LF] ++ ?x) with (LF :: x). cbn [splitLines_loop].
  rewrite decide_True by done. by rewrite IH.
Qed.

Lemma one_line_join sep ls :
  one_line sep → Forall one_line ls → one_line (join sep ls).
Proof.
  intros Hsep. induction 1 as [|l ls Hl Hls IH]; [constructor|].
  destruct ls as [|l' ls]; [done|].
  rewrite join_cons_cons. unfold one_line in *. rewrite !Forall_app. auto.
Qed.

Lemma one_line_csvEscape s : one_line s → one_line (csvEscape (Str s)).
Proof.
  intros Hs. unfold csvEscape. simpl. case_decide as Hq; [|done]. clear Hq.
  unfold one_line. rewrite Forall_cons, Forall_app, Forall_singleton.
  split; [done|]. split; [|done].
  induction Hs as [|c s Hc _ IH]; [constructor|].
  change (doubleQuotes (c :: s))
    with ((if decide (c = quote) then [quote; quote] else [c]) ++ doubleQuotes s).
  apply Forall_app. split; [|done].
  case_decide; [repeat constructor; discriminate|by constructor].
Qed.

Lemma one_line_plain_labels ls : Forall plain_label ls → one_line (join (lit "; ") ls).
Proof.
  intros Hls. apply one_line_join; [by repeat constructor|].
  eapply Forall_impl; [done|]. by intros l (_ & _ & ? & _).
Qed.

Lemma one_line_csvRow e : exportable e → one_line (csvRow e).
Proof.
  intros (Hb & Hd & Hx & Hq). unfold csvRow.
  apply one_line_join; [by repeat constructor|].
  repeat constructor; apply one_line_csvEscape; try done.
  by apply one_line_plain_labels.
Qed.

(** A row holds a comma, so it is not blank. *)
Lemma trim_csvRow e : trim (csvRow e) ≠ [].
Proof.
  rewrite trim_nil_iff. unfold csvRow. rewrite join_cons_cons.
  rewrite !Forall_app. intros (_ & Hcomma & _). by inversion Hcomma.
Qed.

Lemma splitLabels_loop_plain l rest cur :
  Forall (λ c, ¬ (c = 0x3B ∨ c = 0x7C ∨ c = comma)%N) l →
  splitLabels_loop (l ++ rest) cur = splitLabels_loop rest (cur ++ l).
Proof.
  intros Hl. revert cur. induction Hl as [|c l Hc _ IH]; intros cur.
  { by rewrite app_nil_r. }
  cbn [app splitLabels_loop]. rewrite decide_False by done.
  rewrite IH. by rewrite <- app_assoc.
Qed.

Lemma splitLabels_loop_join l ls cur :
  Forall plain_label (l :: ls) →
  splitLabels_loop (join (lit "; ") (l :: ls)) cur
  = (cur ++ l) :: ((λ x, 0x20%N :: x) <$> ls).
Proof.
  revert l cur. induction ls as [|l' ls IH]; intros l cur Hall.
  { apply Forall_cons in Hall as [(_ & _ & _ & Hl) _]. simpl.
    rewrite <- (app_nil_r l) at 1. by rewrite splitLabels_loop_plain. }
  apply Forall_cons in Hall as [(_ & _ & _ & Hl) Hall].
  rewrite join_cons_cons, splitLabels_loop_plain by done.
  change (lit "; " ++ ?x) with (0x3B%N :: 0x20%N :: x). cbn [splitLabels_loop].
  rewrite decide_True by (by left). rewrite decide_False by (intros [|[|]]; done).
  by rewrite IH.
Qed.

(** The column Quellen gives plain labels back. *)
Lemma labels_round_trip ls :
  Forall plain_label ls →
  filter (λ s, s ≠ []) (trim <$> splitLabels (join (lit "; ") ls)) = ls.
Proof.
  intros Hls. destruct ls as [|l ls]; [done|].
  unfold splitLabels. rewrite splitLabels_loop_join by done.
  apply Forall_cons in Hls as [(Hne & Htrim & _) Hls].
  rewrite fmap_cons. simpl. rewrite Htrim, filter_cons_True by done. f_equal.
  induction Hls as [|l' ls (Hne' & Htrim' & _) _ IH]; [done|].
  rewrite !fmap_cons. cbv beta.
  change (0x20%N :: l') with ([0x20%N] ++ l').
  rewrite (trim_ws_l [0x20%N] l') by (by repeat constructor).
  rewrite Htrim', filter_cons_True by done. by f_equal.
Qed.

End CsvFile.

Section CsvImport.
Context `{U : Unicode}.
Implicit Types (entries prev parsed xs : list Entry).

Lemma parseRow_csvRow e : exportable e → parseRow 0 1 2 3 (csvRow e) = e.
Proof.
  intros (_ & _ & _ & Hq). unfold parseRow.
  assert (parseLine (csvRow e)
          = [begriff e; definition e; beispiel e; join (lit "; ") (quellen e)]) as ->
    by apply (parseLine_loop_row _ [_; _; _] []).
  change (cell _ 0) with (begriff e). change (cell _ 1) with (definition e).
  change (cell _ 2) with (beispiel e).
  change (cell _ 3) with (join (lit "; ") (quellen e)).
  rewrite !decide_True by done. rewrite labels_round_trip by done.
  by destruct e.
Qed.

Lemma header_columns :
  header_case →
  (λ s, toLowerCase (trim s))
    <$> parseLine (join [comma] [lit "Begriff"; lit "Definition"; lit "Beispiel";
                                 lit "Quellen"])
  = [lit "begriff"; lit "definition"; lit "beispiel"; lit "quellen"].
Proof.
  intros (Hb & Hd & Hx & Hq).
  assert (parseLine (join [comma] [lit "Begriff"; lit "Definition"; lit "Beispiel";
                                   lit "Quellen"])
          = [lit "Begriff"; lit "Definition"; lit "Beispiel"; lit "Quellen"]) as ->
    by (vm_compute; reflexivity).
  rewrite !fmap_cons, fmap_nil.
  assert (trim (lit "Begriff") = lit "Begriff") as -> by (vm_compute; reflexivity).
  assert (trim (lit "Definition") = lit "Definition") as -> by (vm_compute; reflexivity).
  assert (trim (lit "Beispiel") = lit "Beispiel") as -> by (vm_compute; reflexivity).
  assert (trim (lit "Quellen") = lit "Quellen") as -> by (vm_compute; reflexivity).
  by rewrite Hb, Hd, Hx, Hq.
Qed.

(** Reading what [exportCSV] wrote merges the entries that were written. *)
Lemma importCSV_exportCSV entries prev :
  header_case → Forall exportable entries →
  importCSVFromFile (exportCSV entries) prev = Some (importMerge entries prev).
Proof.
  intros Hcase Hall. unfold importCSVFromFile, exportCSV, splitLines.
  rewrite splitLines_loop_join; cycle 1.
  { constructor.
    - unfold one_line. eapply bool_decide_unpack. vm_compute. exact I.
    - apply Forall_fmap. eapply Forall_impl; [done|]. apply one_line_csvRow. }
  rewrite app_nil_l. cbn [lookup list_lookup default option_map from_option].
  unfold id.
  rewrite (header_columns Hcase).
  assert (findIndex (λ c, c = lit "begriff")
            [lit "begriff"; lit "definition"; lit "beispiel"; lit "quellen"] = 0%Z)
    as -> by (vm_compute; reflexivity).
  assert (findIndex (λ c, c = lit "definition")
            [lit "begriff"; lit "definition"; lit "beispiel"; lit "quellen"] = 1%Z)
    as -> by (vm_compute; reflexivity).
  assert (findIndex (λ c, c = lit "beispiel")
            [lit "begriff"; lit "definition"; lit "beispiel"; lit "quellen"] = 2%Z)
    as -> by (vm_compute; reflexivity).
  assert (findIndex (λ c, c = lit "quellen")
            [lit "begriff"; lit "definition"; lit "beispiel"; lit "quellen"] = 3%Z)
    as -> by (vm_compute; reflexivity).
  rewrite decide_False by done. cbn [drop]. rewrite drop_0.
  do 2 f_equal.
  induction Hall as [|e entries He _ IH]; [done|].
  rewrite fmap_cons, filter_cons_True by apply trim_csvRow.
  rewrite fmap_cons, parseRow_csvRow by done. by f_equal.
Qed.

Local Abbreviation term := (λ e : Entry, normalize (Str (begriff e))).

(** Merging entries that the collection already holds changes nothing. *)
Lemma upsert_present p xs : unique_terms xs → p ∈ xs → upsert p xs = xs.
Proof.
  intros Hunique (k & Hk)%list_elem_of_lookup.
  destruct (upsert_cases p xs) as [(i & x & Hi & Hx & ->)|[Hfresh _]].
  - apply list_insert_id. rewrite Hi. f_equal.
    assert (i = k) as -> by
      (apply (NoDup_lookup _ i k (term p) Hunique);
       rewrite list_lookup_fmap; [by rewrite Hi, <- Hx|by rewrite Hk]).
    congruence.
  - exfalso. apply (Hfresh p); [|done]. apply list_elem_of_lookup. by exists k.
Qed.

Lemma importMerge_present parsed xs :
  unique_terms xs → (∀ p, p ∈ parsed → p ∈ xs) → importMerge parsed xs = xs.
Proof.
  intros Hunique. unfold importMerge.
  induction parsed as [|p parsed IH]; intros Hsub; simpl; [done|].
  assert ((if decide (trim (begriff p) = []) then xs else upsert p xs) = xs) as ->.
  { case_decide; [done|]. apply upsert_present; [done|]. apply Hsub. by left. }
  apply IH. intros q Hq. apply Hsub. by right.
Qed.

(** Merging entries with new, distinct terms appends them in order. *)
Lemma importMerge_fresh parsed prev :
  unique_terms (prev ++ parsed) →
  Forall (λ p, trim (begriff p) ≠ []) parsed →
  importMerge parsed prev = prev ++ parsed.
Proof.
  unfold importMerge. intros Hunique Hblank. revert prev Hunique.
  induction Hblank as [|p parsed Hp _ IH]; intros prev Hunique; simpl.
  { by rewrite app_nil_r. }
  rewrite decide_False by done.
  rewrite upsert_fresh; cycle 1.
  { unfold unique_terms in Hunique. rewrite fmap_app, fmap_cons in Hunique.
    apply NoDup_app in Hunique as (_ & Hdisj & _).
    intros x Hx Heq. apply (Hdisj (normalize (Str (begriff x)))).
    - by apply (list_elem_of_fmap_2 (λ e : Entry, normalize (Str (begriff e)))).
    - rewrite Heq. by left. }
  rewrite IH; [by rewrite <- app_assoc|]. by rewrite <- app_assoc.
Qed.

End CsvImport.

(** X10. Importing the text that [exportCSV] writes for entries whose
    fields hold no line break and whose source labels are plain merges
    exactly those entries, cell for cell and label for label, into the
    collection: nothing is lost or altered on the way through the file. *)
Theorem exportCSV_then_import `{U : Unicode} (entries prev : list Entry) :
  header_case → Forall exportable entries →
  importCSVFromFile (exportCSV entries) prev = Some (importMerge entries prev).
Proof. apply importCSV_exportCSV. Qed.

Lemma exportCSV_then_import_witness :
  @header_case UCD.ucd ∧
  Forall exportable [sample_entry; entry "Zebra"] ∧
  @importCSVFromFile UCD.ucd (exportCSV [sample_entry; entry "Zebra"]) glossary
  = Some (@importMerge UCD.ucd [sample_entry; entry "Zebra"] glossary).
Proof.
  assert (@header_case UCD.ucd) as Hcase by (repeat split; vm_compute; reflexivity).
  assert (Forall exportable [sample_entry; entry "Zebra"]) as Hall.
  { unfold exportable, plain_label, one_line.
    eapply bool_decide_unpack. vm_compute. exact I. }
  split; [exact Hcase|]. split; [exact Hall|].
  exact (@exportCSV_then_import UCD.ucd _ glossary Hcase Hall).
Defined.

(** X11. For a collection with distinct canonical terms and exportable
    entries, importing its own export leaves it as it is; and if no term is
    blank, importing the export into an empty collection gives the
    collection back. *)
Theorem import_own_export `{U : Unicode} (entries : list Entry) :
  header_case → Forall exportable entries → unique_terms entries →
  importCSVFromFile (exportCSV entries) entries = Some entries
  ∧ (Forall (λ e, trim (begriff e) ≠ []) entries →
     importCSVFromFile (exportCSV entries) [] = Some entries).
Proof.
  intros Hcase Hall Hunique. rewrite !importCSV_exportCSV by done. split.
  - f_equal. by apply importMerge_present.
  - intros Hblank. f_equal. by rewrite importMerge_fresh.
Qed.

Lemma import_own_export_witness :
  @header_case UCD.ucd ∧
  Forall exportable [sample_entry; entry "Zebra"] ∧
  @unique_terms UCD.ucd [sample_entry; entry "Zebra"] ∧
  @importCSVFromFile UCD.ucd (exportCSV [sample_entry; entry "Zebra"])
     [sample_entry; entry "Zebra"]
  = Some [sample_entry; entry "Zebra"].
Proof.
  assert (@header_case UCD.ucd) as Hcase by (repeat split; vm_compute; reflexivity).
  assert (Forall exportable [sample_entry; entry "Zebra"]) as Hall.
  { unfold exportable, plain_label, one_line.
    eapply bool_decide_unpack. vm_compute. exact I. }
  assert (@unique_terms UCD.ucd [sample_entry; entry "Zebra"]) as Hunique
    by (eapply bool_decide_unpack; vm_compute; exact I).
  split; [exact Hcase|]. split; [exact Hall|]. split; [exact Hunique|].
  exact (proj1 (@import_own_export UCD.ucd _ Hcase Hall Hunique)).
Defined.

(** ** What an import keeps *)

Section ImportKeeps.
Context `{U : Unicode}.
Implicit Types (prev parsed xs : list Entry) (p q : Entry).

Local Abbreviation term := (λ e : Entry, normalize (Str (begriff e))).

Lemma importMerge_cons p parsed prev :
  importMerge (p :: parsed) prev
  = importMerge parsed (if decide (trim (begriff p) = []) then prev else upsert p prev).
Proof. done. Qed.

Lemma importMerge_app parsed parsed' prev :
  importMerge (parsed ++ parsed') prev = importMerge parsed' (importMerge parsed prev).
Proof. unfold importMerge. apply foldl_app. Qed.

Lemma upsert_terms_prefix p xs : (term <$> xs) `prefix_of` (term <$> upsert p xs).
Proof.
  destruct (upsert_terms p xs) as [->|[_ ->]]; [done|]. by apply prefix_app_r.
Qed.

Lemma importMerge_terms_prefix parsed prev :
  (term <$> prev) `prefix_of` (term <$> importMerge parsed prev).
Proof.
  revert prev. induction parsed as [|p parsed IH]; intros prev; [done|].
  rewrite importMerge_cons. etrans; [|apply IH].
  case_decide; [done|]. apply upsert_terms_prefix.
Qed.

(** An upsert with another canonical term leaves an entry where it is. *)
Lemma upsert_keeps p q xs : p ∈ xs → term q ≠ term p → p ∈ upsert q xs.
Proof.
  intros Hp Hne.
  destruct (upsert_cases q xs) as [(i & x & Hi & Hx & ->)|[_ ->]].
  - apply list_elem_of_lookup in Hp as (j & Hj).
    apply list_elem_of_lookup. exists j.
    rewrite list_lookup_insert_ne; [done|]. intros ->. congruence.
  - apply elem_of_app. by left.
Qed.

Lemma importMerge_keeps p parsed xs :
  p ∈ xs → Forall (λ q, term q ≠ term p) parsed → p ∈ importMerge parsed xs.
Proof.
  intros Hp Hparsed. revert xs Hp.
  induction Hparsed as [|q parsed Hq _ IH]; intros xs Hp; [done|].
  rewrite importMerge_cons. apply IH. case_decide; [done|]. by apply upsert_keeps.
Qed.

End ImportKeeps.

(** X12. A CSV merge never removes or moves a canonical term: the
    canonical terms of the collection before the merge are the first
    canonical terms after it, in the same order, so the collection does
    not shrink. *)
Theorem importMerge_keeps_terms `{U : Unicode} (parsed prev : list Entry) :
  ((λ e, normalize (Str (begriff e))) <$> prev)
    `prefix_of` ((λ e, normalize (Str (begriff e))) <$> importMerge parsed prev)
  ∧ length prev ≤ length (importMerge parsed prev).
Proof.
  pose proof (importMerge_terms_prefix parsed prev) as Hpre.
  split; [done|]. apply prefix_length in Hpre. by rewrite !length_fmap in Hpre.
Qed.

(** X13. Last write wins in a CSV merge: a row with a term that is not
    blank is in the collection after the merge, as it was read, when no
    later row of the file has the same canonical term. *)
Theorem importMerge_last_wins `{U : Unicode} (before after prev : list Entry)
    (p : Entry) :
  trim (begriff p) ≠ [] →
  Forall (λ q, normalize (Str (begriff q)) ≠ normalize (Str (begriff p))) after →
  p ∈ importMerge (before ++ p :: after) prev.
Proof.
  intros Hp Hafter. rewrite importMerge_app, importMerge_cons.
  rewrite decide_False by done.
  apply importMerge_keeps; [apply upsert_elem|done].
Qed.

Lemma importMerge_last_wins_witness :
  trim (begriff (entry "ZEBRA")) ≠ [] ∧
  Forall (λ q, @normalize UCD.ucd (Str (begriff q))
               ≠ @normalize UCD.ucd (Str (begriff (entry "ZEBRA"))))
    [entry "Alpha"] ∧
  entry "ZEBRA" ∈ @importMerge UCD.ucd
                    ([entry "zebra"] ++ entry "ZEBRA" :: [entry "Alpha"]) glossary.
Proof.
  assert (trim (begriff (entry "ZEBRA")) ≠ []) as Hp by (vm_compute; discriminate).
  assert (Forall (λ q, @normalize UCD.ucd (Str (begriff q))
                       ≠ @normalize UCD.ucd (Str (begriff (entry "ZEBRA"))))
            [entry "Alpha"]) as Hafter.
  { constructor; [|constructor]. vm_compute. discriminate. }
  split; [exact Hp|]. split; [exact Hafter|].
  exact (@importMerge_last_wins UCD.ucd [entry "zebra"] [entry "Alpha"] glossary
           (entry "ZEBRA") Hp Hafter).
Defined.

(** ** The sorted view *)

(** X14. The sorted view is a rearrangement of the collection, in either
    direction, whatever order [localeCompare] gives; so every entry the
    search returns on it is an entry of the collection. *)
Theorem sorted_view `{U : Unicode} (localeCompare : list N → list N → Z)
    (entries : list Entry) (sortAsc : bool) (query : list N)
    (fuzzy : bool) (fuzzyTol : Z) :
  sorted localeCompare entries sortAsc ≡ₚ entries
  ∧ sorted localeCompare entries false = reverse (sorted localeCompare entries true)
  ∧ results (sorted localeCompare entries sortAsc) query fuzzy fuzzyTol ⊆+ entries.
Proof.
  assert (sorted localeCompare entries sortAsc ≡ₚ entries) as Hperm.
  { unfold sorted. destruct sortAsc; [|rewrite reverse_Permutation]; apply sort_perm. }
  split; [done|]. split; [done|].
  etrans; [apply results_submseteq|]. by apply Permutation_submseteq.
Qed.

(** ** The editor and the collection *)

Section Editor.
Context `{U : Unicode}.
Implicit Types (xs prev : list Entry) (p q e : Entry) (st : AppState).

Local Abbreviation term := (λ e : Entry, normalize (Str (begriff e))).

Lemma array_set_cases {A} (xs ys : list A) (i : Z) (v : A) :
  array_set xs i v = Some ys →
  (i < 0)%Z ∧ ys = xs
  ∨ (0 ≤ i < Z.of_nat (length xs))%Z ∧ ys = <[Z.to_nat i := v]> xs
  ∨ i = Z.of_nat (length xs) ∧ ys = xs ++ [v].
Proof.
  unfold array_set.
  destruct (Z.ltb_spec i 0); [intros [= <-]; by left|].
  destruct (Z.ltb_spec i (Z.of_nat (length xs))); [intros [= <-]; right; by left|].
  destruct (Z.eqb_spec i (Z.of_nat (length xs))); [|done].
  intros [= <-]. right. by right.
Qed.

(** The assignment stays within this model up to the end of the array. *)
Lemma array_set_is_Some {A} (xs : list A) (i : Z) (v : A) :
  (i ≤ Z.of_nat (length xs))%Z → is_Some (array_set xs i v).
Proof.
  intros Hi. unfold array_set.
  destruct (Z.ltb_spec i 0); [done|].
  destruct (Z.ltb_spec i (Z.of_nat (length xs))); [done|].
  destruct (Z.eqb_spec i (Z.of_nat (length xs))); [done|lia].
Qed.

Lemma array_set_Forall {A} (P : A → Prop) (xs ys : list A) (i : Z) (v : A) :
  Forall P xs → P v → array_set xs i v = Some ys → Forall P ys.
Proof.
  intros Hxs Hv [[_ ->]|[[_ ->]|[_ ->]]]%array_set_cases; [done| |].
  - by apply Forall_insert.
  - apply Forall_app. by split; [|constructor].
Qed.

Lemma upsert_Forall (P : Entry → Prop) p xs :
  Forall P xs → P p → Forall P (upsert p xs).
Proof.
  intros Hxs Hp. destruct (upsert_cases p xs) as [(i & x & _ & _ & ->)|[_ ->]].
  - by apply Forall_insert.
  - apply Forall_app. by split; [|constructor].
Qed.

Lemma importMerge_Forall (P : Entry → Prop) parsed prev :
  (∀ p, trim (begriff p) ≠ [] → P p) →
  Forall P prev → Forall P (importMerge parsed prev).
Proof.
  intros HP. revert prev. induction parsed as [|p parsed IH]; intros prev Hprev; [done|].
  rewrite importMerge_cons. apply IH. case_decide; [done|].
  apply upsert_Forall; [done|]. by apply HP.
Qed.

(** What [saveEditor] stores, and where. *)
Lemma saveEditor_entries st st' :
  saveEditor st = Some st' →
  let trimmed := {| begriff := trim (formBegriff st);
                    definition := trim (formDef st);
                    beispiel := trim (formBsp st);
                    quellen := formQ st |} in
  (trim (formBegriff st) = [] ∧ st' = st)
  ∨ (trim (formBegriff st) ≠ [] ∧ editorOpen st' = false
     ∧ ((∃ i, editorMode st = edit ∧ editorIndex st = Some i
              ∧ array_set (entries st) i trimmed = Some (entries st'))
        ∨ ((editorMode st = create ∨ editorIndex st = None)
           ∧ entries st' = upsert trimmed (entries st)))).
Proof.
  intros Hsave trimmed. unfold saveEditor in Hsave. cbv zeta in Hsave.
  fold trimmed in Hsave. change (begriff trimmed) with (trim (formBegriff st)) in Hsave.
  case_decide as Hblank; [left; by simplify_eq|]. right. split; [done|].
  destruct (editorMode st) eqn:Hmode, (editorIndex st) as [i|] eqn:Hidx;
    simpl in Hsave.
  - simplify_eq. split; [done|]. right. split; [by left|done].
  - simplify_eq. split; [done|]. right. split; [by left|done].
  - destruct (array_set (entries st) i trimmed) as [copy|] eqn:Hset; [|done].
    simplify_eq/=. split; [done|]. left. by exists i.
  - simplify_eq. split; [done|]. right. split; [by right|done].
Qed.

Lemma NoDup_insert_iff {A} (l : list A) (i : nat) (t : A) :
  NoDup l → i < length l →
  NoDup (<[i := t]> l) ↔ ∀ j, j ≠ i → l !! j ≠ Some t.
Proof.
  intros Hl Hi. split.
  - intros Hnodup j Hj Hlook.
    apply Hj. eapply NoDup_lookup; [exact Hnodup| |].
    + by rewrite list_lookup_insert_ne.
    + by apply list_lookup_insert_eq.
  - intros Hfresh. apply NoDup_alt. intros j k x Hj Hk.
    destruct (decide (j = i)) as [->|Hji], (decide (k = i)) as [->|Hki]; [done| | |].
    + rewrite list_lookup_insert_eq in Hj by done. simplify_eq.
      rewrite list_lookup_insert_ne in Hk by done. by destruct (Hfresh k).
    + rewrite list_lookup_insert_eq in Hk by done. simplify_eq.
      rewrite list_lookup_insert_ne in Hj by done. by destruct (Hfresh j).
    + rewrite list_lookup_insert_ne in Hj, Hk by done.
      by eapply NoDup_lookup.
Qed.

Lemma unique_terms_written xs : unique_terms xs → NoDup (begriff <$> xs).
Proof.
  unfold unique_terms. intros Hxs.
  apply (NoDup_fmap_1 (λ b, normalize (Str b))). by rewrite <- list_fmap_compose.
Qed.

Lemma unique_terms_filter (P : Entry → Prop) `{∀ e, Decision (P e)} xs :
  unique_terms xs → unique_terms (filter P xs).
Proof.
  unfold unique_terms. intros Hxs.
  eapply sublist_NoDup; [exact Hxs|]. apply fmap_sublist, sublist_filter.
Qed.

(** The index the pencil button hands to the editor. *)
Lemma editClick_index e xs k :
  NoDup (begriff <$> xs) → xs !! k = Some e →
  findIndex (λ x, begriff x = begriff e) xs = Z.of_nat k.
Proof.
  intros Hnodup Hk. unfold findIndex.
  destruct (list_find (λ x, begriff x = begriff e) xs) as [[i x]|] eqn:Hfind.
  - apply list_find_Some in Hfind as (Hi & Hx & _). f_equal.
    apply (NoDup_lookup _ _ _ (begriff e) Hnodup).
    + rewrite list_lookup_fmap, Hi. simpl. by rewrite Hx.
    + by rewrite list_lookup_fmap, Hk.
  - apply list_find_None in Hfind. rewrite Forall_forall in Hfind.
    destruct (Hfind e); [|done]. apply list_elem_of_lookup. by exists k.
Qed.

End Editor.

(** X15. Saving, importing and adding never store an entry whose term is
    empty or white space only. If no entry of the collection has such a
    term, then [saveEditor] in create mode, and in edit mode with an index
    that is not beyond the end of the collection, returns with a
    collection in which none has; so do the import merge and [addEntry].
    (Beyond the end the program makes an array with holes, which
    [array_set] does not describe.) *)
Theorem blank_terms_never_stored `{U : Unicode} :
  let nonblank := λ e : Entry, ¬ Forall (λ c, isWhiteSpace c) (begriff e) in
  (∀ st, Forall nonblank (entries st) →
         (∀ i, editorMode st = edit → editorIndex st = Some i →
               (i ≤ Z.of_nat (length (entries st)))%Z) →
         ∃ st', saveEditor st = Some st' ∧ Forall nonblank (entries st'))
  ∧ (∀ parsed prev, Forall nonblank prev → Forall nonblank (importMerge parsed prev))
  ∧ (∀ e prev, Forall nonblank prev → Forall nonblank (addEntry e prev)).
Proof.
  intros nonblank.
  assert (∀ e, trim (begriff e) ≠ [] → nonblank e) as Hnb.
  { intros e He. unfold nonblank. by rewrite <- trim_nil_iff. }
  split; [|split].
  - intros st Hst Hrange.
    assert (is_Some (saveEditor st)) as [st' Hsave].
    { unfold saveEditor. cbv zeta. case_decide; [done|].
      destruct (editorMode st) eqn:Hmode, (editorIndex st) as [i|] eqn:Hidx; try done.
      specialize (Hrange i eq_refl eq_refl).
      destruct (array_set_is_Some (entries st) i
                  {| begriff := trim (formBegriff st);
                     definition := trim (formDef st);
                     beispiel := trim (formBsp st);
                     quellen := formQ st |} Hrange) as [copy ->].
      done. }
    exists st'. split; [done|].
    destruct (saveEditor_entries _ _ Hsave) as [[_ ->]|(Hb & _ & Hcases)]; [done|].
    assert (nonblank {| begriff := trim (formBegriff st);
                        definition := trim (formDef st);
                        beispiel := trim (formBsp st);
                        quellen := formQ st |}) as Hnew.
    { apply Hnb. simpl. by rewrite trim_idempotent. }
    destruct Hcases as [(i & _ & _ & Hset)|[_ ->]].
    + by eapply array_set_Forall.
    + by apply upsert_Forall.
  - intros parsed prev. by apply importMerge_Forall.
  - intros e prev Hprev. unfold addEntry.
    case_decide as Hb; [done|]. case_decide; [done|].
    apply Forall_app. split; [done|]. constructor; [by apply Hnb|done].
Qed.

(** X16. A term that is empty or white space only is refused everywhere:
    [saveEditor] returns with the state as it was (the editor stays open),
    the import merge skips every such row, and [addEntry] leaves the
    collection alone. *)
Theorem blank_terms_refused `{U : Unicode} :
  let blank := λ s : list N, Forall (λ c, isWhiteSpace c) s in
  (∀ st, blank (formBegriff st) → saveEditor st = Some st)
  ∧ (∀ parsed prev, Forall (λ p, blank (begriff p)) parsed →
                    importMerge parsed prev = prev)
  ∧ (∀ e prev, blank (begriff e) → addEntry e prev = prev).
Proof.
  intros blank. split; [|split].
  - intros st Hb%trim_nil_iff. unfold saveEditor. cbv zeta. simpl.
    by rewrite decide_True.
  - intros parsed prev Hall.
    induction Hall as [|p parsed Hb%trim_nil_iff _ IH]; [done|].
    rewrite importMerge_cons. by rewrite decide_True.
  - intros e prev Hb%trim_nil_iff. unfold addEntry. by rewrite decide_True.
Qed.

(** X17. Opening the editor on an entry of the collection from a result row
    and saving at once puts the entry back in its place with term,
    definition and example trimmed, and closes the editor; nothing else
    moves.  An entry whose fields carry no outer white space leaves the
    collection exactly as it was.  (The written terms are distinct, the
    term is not blank.) *)
Theorem edit_then_save `{U : Unicode} (e : Entry) (st : AppState) :
  e ∈ entries st →
  NoDup (begriff <$> entries st) →
  trim (begriff e) ≠ [] →
  let trimmed := {| begriff := trim (begriff e);
                    definition := trim (definition e);
                    beispiel := trim (beispiel e);
                    quellen := quellen e |} in
  ∃ st' i, saveEditor (editClick e st) = Some st'
    ∧ editorOpen st' = false
    ∧ entries st !! i = Some e
    ∧ entries st' = <[i := trimmed]> (entries st)
    ∧ (trimmed = e → entries st' = entries st).
Proof.
  intros (k & Hk)%list_elem_of_lookup Hnodup Hb trimmed.
  pose proof (lookup_lt_Some _ _ _ Hk) as Hlt.
  unfold editClick. rewrite (editClick_index e _ k Hnodup Hk).
  unfold saveEditor, openEditorEdit. cbv zeta. simpl.
  rewrite decide_False by done.
  unfold array_set.
  destruct (Z.ltb_spec (Z.of_nat k) 0); [lia|].
  destruct (Z.ltb_spec (Z.of_nat k) (Z.of_nat (length (entries st)))); [|lia].
  simpl. rewrite Nat2Z.id. eexists _, k. split; [done|]. simpl.
  split; [done|]. split; [done|]. split; [done|].
  fold trimmed. intros ->. by apply list_insert_id.
Qed.

Lemma edit_then_save_witness :
  padded_entry ∈ entries padded_state
  ∧ NoDup (begriff <$> entries padded_state)
  ∧ @trim (begriff padded_entry) ≠ []
  ∧ ∃ st' i, @saveEditor UCD.ucd (editClick padded_entry padded_state) = Some st'
      ∧ editorOpen st' = false
      ∧ entries padded_state !! i = Some padded_entry
      ∧ entries st'
        = <[i := {| begriff := trim (begriff padded_entry);
                    definition := trim (definition padded_entry);
                    beispiel := trim (beispiel padded_entry);
                    quellen := quellen padded_entry |}]> (entries padded_state)
      ∧ ({| begriff := trim (begriff padded_entry);
            definition := trim (definition padded_entry);
            beispiel := trim (beispiel padded_entry);
            quellen := quellen padded_entry |} = padded_entry →
         entries st' = entries padded_state).
Proof.
  assert (padded_entry ∈ entries padded_state) as H1
    by (apply list_elem_of_lookup; by exists 1).
  assert (NoDup (begriff <$> entries padded_state)) as H2
    by (eapply bool_decide_unpack; vm_compute; exact I).
  assert (trim (begriff padded_entry) ≠ []) as H3 by (vm_compute; discriminate).
  split; [exact H1|]. split; [exact H2|]. split; [exact H3|].
  exact (@edit_then_save UCD.ucd padded_entry padded_state H1 H2 H3).
Defined.

(** X18. The operations that look the canonical term up keep the canonical
    terms of the collection distinct: [saveEditor] in create mode, the
    import merge, [addEntry], and both ways of deleting. *)
Theorem unique_terms_kept `{U : Unicode} :
  (∀ st st', (editorMode st = create ∨ editorIndex st = None) →
             unique_terms (entries st) → saveEditor st = Some st' →
             unique_terms (entries st'))
  ∧ (∀ parsed prev, unique_terms prev → unique_terms (importMerge parsed prev))
  ∧ (∀ e prev, unique_terms prev → unique_terms (addEntry e prev))
  ∧ (∀ begr prev, unique_terms prev → unique_terms (removeEntry begr prev))
  ∧ (∀ selected prev, unique_terms prev → unique_terms (deleteSelected selected prev)).
Proof.
  split; [|split; [|split; [|split]]].
  - intros st st'. apply saveEditor_create_unique.
  - intros parsed prev. apply importMerge_unique.
  - intros e prev. apply addEntry_unique.
  - intros begr prev. apply unique_terms_filter.
  - intros selected prev. apply unique_terms_filter.
Qed.

(** X19. [saveEditor] in edit mode, on a position of the collection and
    with a term that is not blank, always saves; the canonical terms stay
    distinct exactly when no entry at another position has the canonical
    term of the new term. *)
Theorem saveEditor_edit_unique `{U : Unicode} (st : AppState) (i : Z) :
  editorMode st = edit → editorIndex st = Some i →
  (0 ≤ i < Z.of_nat (length (entries st)))%Z →
  trim (formBegriff st) ≠ [] →
  unique_terms (entries st) →
  ∃ st', saveEditor st = Some st'
    ∧ length (entries st') = length (entries st)
    ∧ (unique_terms (entries st')
       ↔ ∀ j x, entries st !! j = Some x → j ≠ Z.to_nat i →
                normalize (Str (begriff x))
                ≠ normalize (Str (trim (formBegriff st)))).
Proof.
  intros Hmode Hidx [Hlo Hhi] Hb Hunique.
  unfold saveEditor. cbv zeta. simpl. rewrite decide_False by done.
  rewrite Hmode, Hidx. unfold array_set.
  destruct (Z.ltb_spec i 0); [lia|].
  destruct (Z.ltb_spec i (Z.of_nat (length (entries st)))); [|lia].
  simpl. eexists. split; [done|]. simpl.
  split; [by rewrite length_insert|].
  unfold unique_terms. rewrite list_fmap_insert. simpl.
  rewrite NoDup_insert_iff; [|done|rewrite length_fmap; lia].
  split.
  - intros Hfresh j x Hj Hji Heq. apply (Hfresh j Hji).
    by rewrite list_lookup_fmap, Hj, <- Heq.
  - intros Hfresh j Hji Hj. rewrite list_lookup_fmap in Hj.
    destruct (entries st !! j) as [x|] eqn:Hx; [|done]. simplify_eq/=.
    by apply (Hfresh j x).
Qed.

Lemma saveEditor_edit_unique_witness :
  editorMode rename_state = edit ∧ editorIndex rename_state = Some 1%Z
  ∧ (0 ≤ 1 < Z.of_nat (length (entries rename_state)))%Z
  ∧ @trim (formBegriff rename_state) ≠ []
  ∧ @unique_terms UCD.ucd (entries rename_state)
  ∧ ∃ st', @saveEditor UCD.ucd rename_state = Some st'
      ∧ length (entries st') = length (entries rename_state)
      ∧ (@unique_terms UCD.ucd (entries st')
         ↔ ∀ j x, entries rename_state !! j = Some x → j ≠ Z.to_nat 1 →
                  @normalize UCD.ucd (Str (begriff x))
                  ≠ @normalize UCD.ucd (Str (trim (formBegriff rename_state)))).
Proof.
  assert (trim (formBegriff rename_state) ≠ []) as H1 by (vm_compute; discriminate).
  assert (@unique_terms UCD.ucd (entries rename_state)) as H2
    by (eapply bool_decide_unpack; vm_compute; exact I).
  assert (0 ≤ 1 < Z.of_nat (length (entries rename_state)))%Z as H3
    by (simpl; lia).
  split; [done|]. split; [done|]. split; [exact H3|]. split; [exact H1|].
  split; [exact H2|].
  exact (@saveEditor_edit_unique UCD.ucd rename_state 1%Z eq_refl eq_refl H3 H1 H2).
Defined.

Lemma filter_all {A} (P : A → Prop) `{∀ x, Decision (P x)} (l : list A) :
  (∀ x, x ∈ l → P x) → filter P l = l.
Proof.
  induction l as [|x l IH]; intros Hall; [done|].
  rewrite filter_cons_True by (apply Hall; left).
  f_equal. apply IH. intros y Hy. apply Hall. by right.
Qed.

Lemma filter_snoc_out {A} (P : A → Prop) `{∀ x, Decision (P x)} (l : list A) (e : A) :
  (∀ x, x ∈ l → P x) → ¬ P e → filter P (l ++ [e]) = l.
Proof.
  intros Hall He. rewrite filter_app, filter_cons_False, filter_nil by done.
  rewrite app_nil_r. by apply filter_all.
Qed.

(** X20. Adding an entry whose canonical term is new and then deleting it
    gives the collection back, in the first version ([addEntry], then
    [removeEntry] of its term) and in the last (create-mode upsert, then
    the delete button on it). *)
Theorem add_then_delete `{U : Unicode} (e : Entry) (prev : list Entry) :
  trim (begriff e) ≠ [] →
  (∀ x, x ∈ prev → normalize (Str (begriff x)) ≠ normalize (Str (begriff e))) →
  removeEntry (begriff e) (addEntry e prev) = prev
  ∧ deleteSelected e (upsert e prev) = prev.
Proof.
  intros Hb Hfresh.
  split.
  - unfold addEntry. rewrite decide_False by done.
    rewrite decide_False by (rewrite Exists_exists; intros (x & Hx & Heq); by eapply Hfresh).
    unfold removeEntry. apply filter_snoc_out; [done|]. by intros H.
  - rewrite upsert_fresh by done. unfold deleteSelected.
    apply filter_snoc_out; [|by intros H].
    intros x Hx Heq. apply (Hfresh x Hx). by rewrite Heq.
Qed.

Lemma add_then_delete_witness :
  @trim (begriff (entry "Zebra")) ≠ []
  ∧ (∀ x, x ∈ [entry "Alpha"; entry "Beta"] →
          @normalize UCD.ucd (Str (begriff x))
          ≠ @normalize UCD.ucd (Str (begriff (entry "Zebra"))))
  ∧ @removeEntry UCD.ucd (begriff (entry "Zebra"))
      (@addEntry UCD.ucd (entry "Zebra") [entry "Alpha"; entry "Beta"])
    = [entry "Alpha"; entry "Beta"]
  ∧ deleteSelected (entry "Zebra")
      (@upsert UCD.ucd (entry "Zebra") [entry "Alpha"; entry "Beta"])
    = [entry "Alpha"; entry "Beta"].
Proof.
  assert (trim (begriff (entry "Zebra")) ≠ []) as H1 by (vm_compute; discriminate).
  assert (∀ x, x ∈ [entry "Alpha"; entry "Beta"] →
               @normalize UCD.ucd (Str (begriff x))
               ≠ @normalize UCD.ucd (Str (begriff (entry "Zebra")))) as H2.
  { apply Forall_forall. eapply bool_decide_unpack. vm_compute. exact I. }
  split; [exact H1|]. split; [exact H2|].
  exact (@add_then_delete UCD.ucd (entry "Zebra") [entry "Alpha"; entry "Beta"] H1 H2).
Defined.

(** ** Sources *)

Section Sources.
Implicit Types (s : list Source) (prev : list jsstring) (name : jsstring).

Lemma removeSource_offset (k t : nat) s :
  (imap (λ idx x, (k + idx, x)) s) ≫= (λ p, if decide (p.1 ≠ t) then [p.2] else [])
  = if decide (t < k) then s else take (t - k) s ++ drop (S (t - k)) s.
Proof.
  revert k. induction s as [|x s IH]; intros k.
  { case_decide; [done|]. by rewrite take_nil, drop_nil. }
  cbn [imap]. rewrite bind_cons. cbn [fst snd].
  assert (imap ((λ idx (y : Source), (k + idx, y)) ∘ S) s
          = imap (λ idx (y : Source), (S k + idx, y)) s) as ->.
  { apply imap_ext. intros j y _. simpl. f_equal. lia. }
  rewrite (IH (S k)).
  destruct (decide (t < k)) as [Hlt|Hge].
  - rewrite decide_True by lia. by rewrite decide_True by lia.
  - destruct (decide (t = k)) as [->|Hne].
    + rewrite decide_False by lia. rewrite decide_True by lia.
      by rewrite Nat.sub_diag.
    + rewrite decide_True by lia. rewrite decide_False by lia.
      replace (t - k) with (S (t - S k)) by lia. done.
Qed.

Lemma toggleQ_elem name prev x :
  x ∈ toggleQ name prev ↔ (x ∈ prev ∧ x ≠ name) ∨ (x = name ∧ name ∉ prev).
Proof.
  unfold toggleQ. case_decide as Hin.
  - rewrite list_elem_of_filter. tauto.
  - rewrite elem_of_app, list_elem_of_singleton. split.
    + intros [Hx| ->]; [left; split; [done|by intros ->]|by right].
    + intros [[Hx _]|[-> _]]; [by left|by right].
Qed.

Lemma toggleQ_NoDup name prev : NoDup prev → NoDup (toggleQ name prev).
Proof.
  intros Hprev. unfold toggleQ. case_decide as Hin.
  - by apply NoDup_filter.
  - apply NoDup_app. split; [done|]. split; [|apply NoDup_singleton].
    intros x Hx ->%list_elem_of_singleton. done.
Qed.

End Sources.

(** X21. The check box of a source flips its label in the entry's source
    list and touches no other label: afterwards a label is selected exactly
    when it was and is another one, or is the toggled label and was not.
    A list without repetition stays so, and ticking a box twice, starting
    from a label that was not selected, gives the list back. *)
Theorem toggleQ_flips (name : list N) (prev : list (list N)) :
  (∀ x, x ∈ toggleQ name prev ↔ (x ∈ prev ∧ x ≠ name) ∨ (x = name ∧ name ∉ prev))
  ∧ (NoDup prev → NoDup (toggleQ name prev))
  ∧ (name ∉ prev → toggleQ name (toggleQ name prev) = prev)
  ∧ (NoDup prev → toggleQ name (toggleQ name prev) ≡ₚ prev).
Proof.
  assert (name ∉ prev → toggleQ name (toggleQ name prev) = prev) as Hoff.
  { intros Hout. unfold toggleQ at 2. rewrite decide_False by done.
    unfold toggleQ. rewrite decide_True by (apply elem_of_app; right; left).
    apply filter_snoc_out; [|by intros H]. by intros x Hx ->. }
  split; [apply toggleQ_elem|]. split; [apply toggleQ_NoDup|]. split; [done|].
  intros Hnodup. destruct (decide (name ∈ prev)) as [Hin|Hout]; [|by rewrite Hoff].
  apply NoDup_Permutation; [by do 2 apply toggleQ_NoDup|done|].
  intros x. rewrite !toggleQ_elem.
  destruct (decide (x = name)) as [->|]; tauto.
Qed.

(** X22. [addNewSourceInEditor] never changes or drops a source: the old
    list is a prefix of the new one.  Distinct labels stay distinct, a
    selection without repetition stays so, and after a label that is not
    blank the trimmed label is both a source and selected, and the two
    inputs are cleared; a blank label changes nothing at all. *)
Theorem addNewSourceInEditor_spec (st : SourceForm) :
  let st' := addNewSourceInEditor st in
  let qn := trim (newQuelle st) in
  sources st `prefix_of` sources st'
  ∧ selectedQ st `prefix_of` selectedQ st'
  ∧ (NoDup (quelle <$> sources st) → NoDup (quelle <$> sources st'))
  ∧ (NoDup (selectedQ st) → NoDup (selectedQ st'))
  ∧ (¬ Forall (λ c, isWhiteSpace c) (newQuelle st) →
     qn ∈ quelle <$> sources st' ∧ qn ∈ selectedQ st'
     ∧ newQuelle st' = [] ∧ newBeschr st' = [])
  ∧ (Forall (λ c, isWhiteSpace c) (newQuelle st) → st' = st).
Proof.
  intros st' qn. subst st'. unfold addNewSourceInEditor. cbv zeta. fold qn.
  rewrite <- (trim_nil_iff (newQuelle st)). fold qn.
  case_decide as Hb.
  { repeat split; try done. }
  simpl. split; [|split; [|split; [|split; [|split]]]].
  - case_decide; [done|]. by apply prefix_app_r.
  - case_decide; [done|]. by apply prefix_app_r.
  - intros Hnodup. case_decide as Hex; [done|].
    rewrite fmap_app. apply NoDup_app. split; [done|].
    split; [|apply NoDup_singleton].
    intros x Hx ->%list_elem_of_singleton. apply Hex.
    apply list_elem_of_fmap in Hx as (y & Hy & Hin).
    apply Exists_exists. by exists y.
  - intros Hnodup. case_decide as Hin; [done|].
    apply NoDup_app. split; [done|]. split; [|apply NoDup_singleton].
    by intros x Hx ->%list_elem_of_singleton.
  - intros _. split; [|split; [|done]].
    + case_decide as Hex.
      * apply Exists_exists in Hex as (y & Hy & <-).
        by apply list_elem_of_fmap_2.
      * rewrite fmap_app. apply elem_of_app. right. by left.
    + case_decide as Hin; [done|]. apply elem_of_app. right. by left.
  - done.
Qed.

(** X23. Removing the source at position [i] of the source list takes out
    that one source and keeps the others in order; a position outside the
    list removes nothing. *)
Theorem removeSource_spec (i : nat) (s : list Source) :
  removeSource i s = take i s ++ drop (S i) s
  ∧ (∀ j, removeSource i s !! j = if decide (j < i) then s !! j else s !! S j)
  ∧ (length s ≤ i → removeSource i s = s).
Proof.
  assert (removeSource i s = take i s ++ drop (S i) s) as Heq.
  { unfold removeSource. etrans; [exact (removeSource_offset 0 i s)|].
    by rewrite Nat.sub_0_r. }
  split; [done|]. rewrite Heq. split.
  - intros j. case_decide as Hj.
    + destruct (decide (i ≤ length s)).
      * rewrite lookup_app_l by (rewrite length_take; lia).
        by apply lookup_take_lt.
      * rewrite take_ge, drop_ge, app_nil_r by lia. done.
    + destruct (decide (i ≤ length s)).
      * rewrite lookup_app_r by (rewrite length_take; lia).
        rewrite length_take, lookup_drop. f_equal. lia.
      * rewrite take_ge, drop_ge, app_nil_r by lia.
        rewrite !lookup_ge_None_2 by lia. done.
  - intros Hi. by rewrite take_ge, drop_ge, app_nil_r by lia.
Qed.

(** ** Saving a new entry *)

(** X24. [saveEditor] in create mode with a term that is not blank always
    saves and closes the editor: the trimmed record is then in the
    collection, every canonical term that was there is still there at the
    same position, and the collection has grown by one entry if the
    canonical term is new and by none if it is not (the record found is
    replaced). *)
Theorem saveEditor_create_stores `{U : Unicode} (st : AppState) :
  editorMode st = create →
  trim (formBegriff st) ≠ [] →
  let trimmed := {| begriff := trim (formBegriff st);
                    definition := trim (formDef st);
                    beispiel := trim (formBsp st);
                    quellen := formQ st |} in
  let term := λ e : Entry, normalize (Str (begriff e)) in
  ∃ st', saveEditor st = Some st'
    ∧ editorOpen st' = false
    ∧ trimmed ∈ entries st'
    ∧ (term <$> entries st) `prefix_of` (term <$> entries st')
    ∧ length (entries st')
      = if decide (term trimmed ∈ term <$> entries st) then length (entries st)
        else S (length (entries st)).
Proof.
  intros Hmode Hb trimmed term.
  unfold saveEditor. cbv zeta. fold trimmed.
  change (begriff trimmed) with (trim (formBegriff st)).
  rewrite decide_False by done. rewrite Hmode. simpl.
  eexists. split; [done|]. simpl. split; [done|].
  split; [apply upsert_elem|]. split; [apply upsert_terms_prefix|].
  destruct (upsert_cases trimmed (entries st)) as [(i & x & Hi & Hx & ->)|[Hfresh ->]].
  - rewrite length_insert. rewrite decide_True; [done|].
    apply list_elem_of_fmap. exists x. split; [done|].
    apply list_elem_of_lookup. by exists i.
  - rewrite length_app. simpl. rewrite decide_False; [lia|].
    intros (x & Hx & Hin)%list_elem_of_fmap. by apply (Hfresh x Hin).
Qed.

Lemma saveEditor_create_stores_witness :
  editorMode create_state = create
  ∧ @trim (formBegriff create_state) ≠ []
  ∧ ∃ st', @saveEditor UCD.ucd create_state = Some st'
      ∧ editorOpen st' = false
      ∧ {| begriff := trim (formBegriff create_state);
           definition := trim (formDef create_state);
           beispiel := trim (formBsp create_state);
           quellen := formQ create_state |} ∈ entries st'
      ∧ ((λ e : Entry, @normalize UCD.ucd (Str (begriff e))) <$> entries create_state)
        `prefix_of`
        ((λ e : Entry, @normalize UCD.ucd (Str (begriff e))) <$> entries st')
      ∧ length (entries st')
        = if decide (@normalize UCD.ucd (Str (trim (formBegriff create_state)))
                     ∈ (λ e : Entry, @normalize UCD.ucd (Str (begriff e)))
                       <$> entries create_state)
          then length (entries create_state)
          else S (length (entries create_state)).
Proof.
  assert (trim (formBegriff create_state) ≠ []) as H1 by (vm_compute; discriminate).
  split; [done|]. split; [exact H1|].
  exact (@saveEditor_create_stores UCD.ucd create_state eq_refl H1).
Defined.

(** ** Importing twice *)

Section ImportTwice.
Context `{U : Unicode}.
Implicit Types (xs prev parsed : list Entry) (p q : Entry).

Local Abbreviation term := (λ e : Entry, normalize (Str (begriff e))).

(** One round of the merge loop. *)
Local Abbreviation step p xs :=
  (if decide (trim (begriff p) = []) then xs%list else upsert p xs).

Lemma upsert_first p xs :
  (∃ i x, xs !! i = Some x ∧ term x = term p
          ∧ (∀ j y, xs !! j = Some y → j < i → term y ≠ term p)
          ∧ upsert p xs = <[i := p]> xs)
  ∨ ((∀ x, x ∈ xs → term x ≠ term p) ∧ upsert p xs = xs ++ [p]).
Proof.
  destruct (list_find (λ x, term x = term p) xs) as [[i x]|] eqn:Hfind.
  - apply list_find_Some in Hfind as (Hi & Hx & Hfirst).
    left. exists i, x. split; [done|]. split; [done|]. split; [done|].
    by eapply upsert_found.
  - apply list_find_None in Hfind. rewrite Forall_forall in Hfind.
    right. split; [done|]. by apply upsert_fresh.
Qed.

(** A second write to the same canonical term overrides the first. *)
Lemma upsert_absorb p q xs :
  term q = term p → upsert p (upsert q xs) = upsert p xs.
Proof.
  intros Heq.
  destruct (upsert_first q xs) as [(i & x & Hi & Hx & Hfirst & ->)|[Hfresh ->]].
  - pose proof (lookup_lt_Some _ _ _ Hi) as Hlt.
    rewrite (upsert_found p xs i x); [|done|congruence|].
    2:{ intros j y Hj Hji. rewrite <- Heq. by eapply Hfirst. }
    rewrite (upsert_found p (<[i := q]> xs) i q); [|by apply list_lookup_insert_eq|done|].
    2:{ intros j y Hj Hji. rewrite list_lookup_insert_ne in Hj by lia.
        rewrite <- Heq. by eapply Hfirst. }
    apply list_insert_insert_eq.
  - rewrite (upsert_fresh p xs) by (intros x Hx; rewrite <- Heq; by apply Hfresh).
    rewrite (upsert_found p (xs ++ [q]) (length xs) q); [| |done|].
    + rewrite insert_app_r_alt by lia. by rewrite Nat.sub_diag.
    + rewrite lookup_app_r by lia. by rewrite Nat.sub_diag.
    + intros j y Hj Hji. rewrite lookup_app_l in Hj by done.
      rewrite <- Heq. apply Hfresh. apply list_elem_of_lookup. by exists j.
Qed.

(** Writes to different canonical terms commute, unless both append. *)
Lemma upsert_comm p q xs :
  term q ≠ term p → term q ∈ term <$> xs →
  upsert p (upsert q xs) = upsert q (upsert p xs).
Proof.
  intros Hne Hin.
  destruct (upsert_first q xs) as [(i & x & Hi & Hx & Hfirst & ->)|[Hfresh _]].
  2:{ apply list_elem_of_fmap in Hin as (y & Hy & Hyin). by destruct (Hfresh y). }
  pose proof (lookup_lt_Some _ _ _ Hi) as Hlt.
  destruct (upsert_first p xs) as [(k & y & Hk & Hy & Hkfirst & ->)|[Hfresh ->]].
  - pose proof (lookup_lt_Some _ _ _ Hk) as Hklt.
    assert (i ≠ k) as Hik by (intros ->; congruence).
    rewrite (upsert_found p (<[i := q]> xs) k y); [| |done|].
    2:{ by rewrite list_lookup_insert_ne. }
    2:{ intros j z Hj Hjk.
        apply list_lookup_insert_Some in Hj as [(_ & <- & _)|[_ Hj]]; [congruence|].
        by eapply Hkfirst. }
    rewrite (upsert_found q (<[k := p]> xs) i x); [| |done|].
    2:{ by rewrite list_lookup_insert_ne. }
    2:{ intros j z Hj Hji.
        apply list_lookup_insert_Some in Hj as [(_ & <- & _)|[_ Hj]]; [congruence|].
        by eapply Hfirst. }
    by apply list_insert_insert_ne.
  - rewrite (upsert_fresh p (<[i := q]> xs)).
    2:{ intros z (j & Hj)%list_elem_of_lookup.
        apply list_lookup_insert_Some in Hj as [(_ & <- & _)|[_ Hj]]; [congruence|].
        apply Hfresh. apply list_elem_of_lookup. by exists j. }
    rewrite (upsert_found q (xs ++ [p]) i x); [| |done|].
    + by rewrite insert_app_l.
    + by rewrite lookup_app_l.
    + intros j z Hj Hji. rewrite lookup_app_l in Hj by lia. by eapply Hfirst.
Qed.

Lemma step_terms_prefix p xs : (term <$> xs) `prefix_of` (term <$> step p xs).
Proof. case_decide; [done|]. apply upsert_terms_prefix. Qed.

(** Once the rows' canonical terms are all in the collection, a row merged
    before them and again after them counts only the second time. *)
Lemma importMerge_step p parsed xs :
  Forall (λ q, trim (begriff q) ≠ [] → term q ∈ term <$> xs) parsed →
  step p (importMerge parsed (step p xs)) = step p (importMerge parsed xs).
Proof.
  destruct (decide (trim (begriff p) = [])) as [Hb|Hb]; [done|].
  intros Hall. revert xs Hall.
  induction parsed as [|q parsed IH]; intros xs Hall.
  { simpl. by apply upsert_absorb. }
  apply Forall_cons in Hall as [Hq Hall].
  rewrite !importMerge_cons.
  destruct (decide (trim (begriff q) = [])) as [Hqb|Hqb]; [by apply IH|].
  destruct (decide (term q = term p)) as [Heq|Hne].
  { by rewrite (upsert_absorb q p) by done. }
  rewrite <- (upsert_comm p q) by (try done; by apply Hq).
  apply IH. eapply Forall_impl; [exact Hall|]. simpl. intros r Hr Hrb.
  eapply elem_of_prefix; [by apply Hr|]. apply upsert_terms_prefix.
Qed.

Lemma importMerge_terms_in parsed prev :
  Forall (λ q, trim (begriff q) ≠ [] → term q ∈ term <$> importMerge parsed prev) parsed.
Proof.
  revert prev. induction parsed as [|p parsed IH]; intros prev; [done|].
  rewrite importMerge_cons. constructor; [|apply IH].
  intros Hb. rewrite decide_False by done.
  eapply elem_of_prefix; [|apply importMerge_terms_prefix].
  apply (list_elem_of_fmap_2 (λ e : Entry, normalize (Str (begriff e)))).
  apply upsert_elem.
Qed.

Lemma importMerge_snoc parsed p prev :
  importMerge (parsed ++ [p]) prev = step p (importMerge parsed prev).
Proof. by rewrite importMerge_app. Qed.

Lemma importMerge_twice parsed prev :
  importMerge parsed (importMerge parsed prev) = importMerge parsed prev.
Proof.
  induction parsed as [|p parsed IH] using rev_ind; [done|].
  rewrite !importMerge_snoc. rewrite importMerge_step by apply importMerge_terms_in.
  by rewrite IH.
Qed.

End ImportTwice.

(** X25. Importing the same file a second time changes nothing: the merge
    of rows that were just merged gives the collection back, whatever the
    rows (repeated canonical terms, blank terms) and whatever the
    collection was; and so does [importCSVFromFile] on the same text. *)
Theorem import_twice `{U : Unicode} (text : list N) (parsed prev : list Entry) :
  importMerge parsed (importMerge parsed prev) = importMerge parsed prev
  ∧ (importCSVFromFile text prev ≫= importCSVFromFile text)
    = importCSVFromFile text prev.
Proof.
  split; [apply importMerge_twice|].
  unfold importCSVFromFile. cbv zeta. case_decide; [done|].
  simpl. by rewrite importMerge_twice.
Qed.
